(** * Get-ChangedDisksSince: disk-change correlation pipeline

    A shallow embedding of the PowerShell script that audits Azure Managed
    Disk lifecycle and attach/detach events (the second artifact of
    [AnalyticalListPageExt.controller.js], lines 200-607), with the
    properties of its helpers, of the attachment diff and of the disk
    change aggregation.

    Conventions of the embedding.
    - A .NET string is a [string]; its characters are read as the code
      units 0..255, so the character classes below are the Latin-1 part of
      the .NET classes.
    - [$null] is [None]; a value that the script never leaves null is a
      plain [string] or [Z].
    - A timestamp is a [Z] (ticks).
    - A statement-terminating error inside a [try] block is an explicit
      [Throw]; the script sets neither [$ErrorActionPreference] nor strict
      mode, so outside a [try] a failed statement is skipped and the script
      goes on with the next one. *)

From Stdlib Require Import ZArith Ascii String List Bool Lia Permutation.
From stdpp Require Import gmap strings list fin_maps.

Local Open Scope string_scope.
Local Open Scope list_scope.
Set Warnings "-register-all".

(** ** PowerShell and .NET primitives *)

Module PS.

(** [Char.IsWhiteSpace], which is also the regex class [\s], on the code
    units 0..255: TAB..CR, SPACE, NEL (U+0085) and NBSP (U+00A0). *)
Definition IsWhiteSpace (c : ascii) : bool :=
  let n := nat_of_ascii c in
  ((9 <=? n)%nat && (n <=? 13)%nat) || (n =? 32)%nat || (n =? 133)%nat || (n =? 160)%nat.

Fixpoint all_chars (p : ascii -> bool) (s : string) : bool :=
  match s with
  | EmptyString => true
  | String c s' => p c && all_chars p s'
  end.

(** [[string]::IsNullOrWhiteSpace] on a [[string]]-typed parameter (a null
    argument is bound as the empty string). *)
Definition IsNullOrWhiteSpace (s : string) : bool := all_chars IsWhiteSpace s.

(** [Char.ToLower], the letter-case folding of [ToLower()], of the
    case-insensitive operators and of the key comparer of a hashtable
    literal, on the code units 0..255: the capitals A..Z (65..90) and the
    Latin-1 capitals U+00C0..U+00D6 and U+00D8..U+00DE (192..214 and
    216..222) move to the small letter 32 places up; the multiplication
    sign (215), the sharp s (223) and every other code unit stay. *)
Definition lower_char (c : ascii) : ascii :=
  let n := nat_of_ascii c in
  if ((65 <=? n)%nat && (n <=? 90)%nat)
     || ((192 <=? n)%nat && (n <=? 214)%nat)
     || ((216 <=? n)%nat && (n <=? 222)%nat)
  then ascii_of_nat (n + 32) else c.

Fixpoint ToLower (s : string) : string :=
  match s with
  | EmptyString => EmptyString
  | String c s' => String (lower_char c) (ToLower s')
  end.

(** [-eq] between two strings: equality up to letter case. *)
Definition ieq (a b : string) : bool := String.eqb (ToLower a) (ToLower b).

(** [$x -eq $s] where [$x] may be null and [$s] is a string. *)
Definition eq_op (x : option string) (s : string) : bool :=
  match x with
  | Some a => ieq a s
  | None => false
  end.

(** A null value interpolated in a string, or given to [-f], prints as the
    empty string. *)
Definition str (x : option string) : string :=
  match x with
  | Some a => a
  | None => EmptyString
  end.

(** ["{0}|{1}|{2}" -f a, b, c] *)
Definition format3 (a b c : string) : string := a +:+ "|" +:+ b +:+ "|" +:+ c.

(** [$s -split '/']: the pieces between the separators, empty ones kept. *)
Fixpoint split (sep : ascii) (s : string) : list string :=
  match s with
  | EmptyString => [EmptyString]
  | String c s' =>
      if Ascii.eqb c sep then EmptyString :: split sep s'
      else match split sep s' with
           | h :: t => String c h :: t
           | [] => [String c EmptyString]
           end
  end.

(** The values a report cell can hold. *)
Inductive Value : Type :=
  | Null
  | Int (n : Z)
  | Str (s : string).

End PS.

(** ** Parse-ResourceId (lines 309-325) *)

Module ResourceId.

Record t : Type := mk {
  SubscriptionId : option string;
  ResourceGroup  : option string;
  Provider       : option string;
  Type_          : option string;
  Name           : option string
}.

Definition null : t := mk None None None None None.

Definition set_SubscriptionId (v : option string) (r : t) : t :=
  mk v (ResourceGroup r) (Provider r) (Type_ r) (Name r).
Definition set_ResourceGroup (v : option string) (r : t) : t :=
  mk (SubscriptionId r) v (Provider r) (Type_ r) (Name r).
Definition set_Provider (v : option string) (r : t) : t :=
  mk (SubscriptionId r) (ResourceGroup r) v (Type_ r) (Name r).
Definition set_Type (v : option string) (r : t) : t :=
  mk (SubscriptionId r) (ResourceGroup r) (Provider r) v (Name r).
Definition set_Name (v : option string) (r : t) : t :=
  mk (SubscriptionId r) (ResourceGroup r) (Provider r) (Type_ r) v.

End ResourceId.

(** [$parts[i]] is [parts !! i]: an index past the end of an array reads as
    [$null], it does not raise. *)
Definition Parse_ResourceId (rid : string) : ResourceId.t :=
  let result := ResourceId.null in
  if PS.IsNullOrWhiteSpace rid then result else
  let parts := PS.split "/" rid in
  let result :=
    if (3 <=? length parts)%nat
    then ResourceId.set_SubscriptionId (parts !! 2%nat) result else result in
  let result :=
    if (5 <=? length parts)%nat
    then ResourceId.set_ResourceGroup (parts !! 4%nat) result else result in
  let result :=
    if (7 <=? length parts)%nat
    then ResourceId.set_Provider
           (Some (PS.str (parts !! 6%nat) +:+ "/" +:+ PS.str (parts !! 7%nat))) result
    else result in
  let result :=
    if (9 <=? length parts)%nat
    then ResourceId.set_Name (parts !! 8%nat)
           (ResourceId.set_Type (parts !! 7%nat) result)
    else result in
  result.

(** ** Statement-terminating errors *)

Inductive Exn (A : Type) : Type :=
  | Return (a : A)
  | Throw.
Arguments Return {A} a.
Arguments Throw {A}.

Definition bind {A B : Type} (m : Exn A) (k : A -> Exn B) : Exn B :=
  match m with
  | Return a => k a
  | Throw => Throw
  end.

(** ** Regular expressions of the script

    Each pattern is matched the way the .NET engine does: leftmost,
    greedy, with backtracking. A quantified class followed by a literal
    outside the class (white space before a colon, a brace or a quote; the
    characters of a quoted value before its closing quote) cannot gain
    anything by giving characters back, so it is matched by taking the
    longest run; the one place where backtracking decides the match, the
    class [[^}]*] before the id member, is written out. Every matcher
    returns the text left after the match. *)

Module Regex.

(** The double quote character, and a name between double quotes. *)
Definition dquote : ascii := "034"%char.
Definition quoted (s : string) : string := String dquote (s +:+ String dquote EmptyString).

(** A literal: the rest of [s] after the prefix [l]. *)
Fixpoint lit (l s : string) : option string :=
  match l with
  | EmptyString => Some s
  | String a l' =>
      match s with
      | String c s' => if Ascii.eqb a c then lit l' s' else None
      | EmptyString => None
      end
  end.

(** [\s*] *)
Fixpoint ws (s : string) : string :=
  match s with
  | String c s' => if PS.IsWhiteSpace c then ws s' else s
  | EmptyString => s
  end.

(** The longest run of characters in a class, and the text after it. *)
Fixpoint span (p : ascii -> bool) (s : string) : string * string :=
  match s with
  | String c s' =>
      if p c then let '(run, rest) := span p s' in (String c run, rest)
      else (EmptyString, s)
  | EmptyString => (EmptyString, s)
  end.

Definition is_quote (c : ascii) : bool := Ascii.eqb c dquote.
Definition is_digit (c : ascii) : bool :=
  let n := nat_of_ascii c in (48 <=? n)%nat && (n <=? 57)%nat.

(** [\s*:\s*] *)
Definition colon (s : string) : option string :=
  match lit ":" (ws s) with
  | Some s' => Some (ws s')
  | None => None
  end.

(** The member [id] with a non-empty quoted value, pattern
    [QidQ\s*:\s*Q([^Q]+)Q] where [Q] is the double quote: the capture and
    the rest. *)
Definition id_member (s : string) : option (string * string) :=
  match lit (quoted "id") s with
  | None => None
  | Some s1 =>
      match colon s1 with
      | None => None
      | Some s2 =>
          match lit (String dquote EmptyString) s2 with
          | None => None
          | Some s3 =>
              let '(cap, s4) := span (fun c => negb (is_quote c)) s3 in
              match cap with
              | EmptyString => None
              | _ => match lit (String dquote EmptyString) s4 with
                     | Some s5 => Some (cap, s5)
                     | None => None
                     end
              end
          end
      end
  end.

(** [[^}]*] followed by the id member: the greedy class first takes a
    character when it can, and the member is tried here only when every
    longer attempt has failed. *)
Fixpoint braces_then_id (s : string) : option (string * string) :=
  match s with
  | String c s' =>
      if Ascii.eqb c "}" then id_member s
      else match braces_then_id s' with
           | Some r => Some r
           | None => id_member s
           end
  | EmptyString => id_member s
  end.

(** The pattern of Extract-DiskIdsFromVmJson,
    [QmanagedDiskQ\s*:\s*\{[^}]*QidQ\s*:\s*Q([^Q]+)Q], anchored at the
    start of [s]. *)
Definition managedDisk_at (s : string) : option (string * string) :=
  match lit (quoted "managedDisk") s with
  | None => None
  | Some s1 =>
      match colon s1 with
      | None => None
      | Some s2 =>
          match lit "{" s2 with
          | None => None
          | Some s3 => braces_then_id s3
          end
      end
  end.

(** [[regex]::Matches]: the successive matches from left to right, each
    search resuming where the previous match ended. [skip] counts the
    characters of the current match still to pass over. The result lists
    group 1 of every match. *)
Fixpoint Matches (m : string -> option (string * string)) (skip : nat) (s : string)
  : list string :=
  match s with
  | EmptyString => []
  | String _ s' =>
      match skip with
      | S k => Matches m k s'
      | O =>
          match m s with
          | Some (cap, rest) =>
              cap :: Matches m (String.length s' - String.length rest) s'
          | None => Matches m O s'
          end
      end
  end.

(** [[regex]::Match]: group 1 of the first match, if any. *)
Fixpoint Match (m : string -> option string) (s : string) : option string :=
  match m s with
  | Some v => Some v
  | None => match s with
            | String _ s' => Match m s'
            | EmptyString => None
            end
  end.

(** [(?:[^Q\\]|\\.)*Q]: the text up to the closing quote; a backslash takes
    the next character with it, unless that is a line feed. *)
Fixpoint quoted_body (s : string) : option string :=
  match s with
  | EmptyString => None
  | String c s' =>
      if is_quote c then Some EmptyString
      else if Ascii.eqb c "\" then
        match s' with
        | String d s'' =>
            if Ascii.eqb d "010" then None
            else option_map (fun r => String c (String d r)) (quoted_body s'')
        | EmptyString => None
        end
      else option_map (String c) (quoted_body s')
  end.

(** The pattern of Try-Parse-Field,
    [QfieldQ\s*:\s*(\d+|Q(?:[^Q\\]|\\.)*Q)], anchored at the start of [s],
    for a field name without regex metacharacters: group 1. *)
Definition field_at (fieldName s : string) : option string :=
  match lit (quoted fieldName) s with
  | None => None
  | Some s1 =>
      match colon s1 with
      | None => None
      | Some s2 =>
          match fst (span is_digit s2) with
          | String d ds => Some (String d ds)
          | EmptyString =>
              match lit (String dquote EmptyString) s2 with
              | Some s3 => option_map quoted (quoted_body s3)
              | None => None
              end
          end
      end
  end.

End Regex.

(** ** Try-Parse-Field (lines 285-296) *)

Fixpoint decimal (acc : Z) (s : string) : Z :=
  match s with
  | EmptyString => acc
  | String c s' => decimal (10 * acc + (Z.of_nat (nat_of_ascii c) - 48)) s'
  end.

(** [[int]$val] on a string of digits: a value past [Int32.MaxValue] does
    not convert. *)
Definition to_int (val : string) : Exn Z :=
  let n := decimal 0 val in
  if (n <=? 2147483647)%Z then Return n else Throw.

(** The [-replace] that strips the quote at the start and the quote at the
    end of a quoted group. *)
Definition unquote (val : string) : string :=
  match val with
  | String _ s => substring 0 (String.length s - 1) s
  | EmptyString => EmptyString
  end.

Definition Try_Parse_Field (json fieldName : string) : Exn PS.Value :=
  if PS.IsNullOrWhiteSpace json then Return PS.Null else
  match Regex.Match (Regex.field_at fieldName) json with
  | Some val =>
      if PS.all_chars Regex.is_digit val
      then bind (to_int val) (fun n => Return (PS.Int n))
      else Return (PS.Str (unquote val))
  | None => Return PS.Null
  end.

(** ** Extract-DiskIdsFromVmJson (lines 299-306) *)

(** [HashSet[string]]: the elements in the order they were first added;
    [Add] compares ordinally. *)
Module HashSet.

Definition Contains (ids : list string) (id : string) : bool :=
  existsb (String.eqb id) ids.

Definition Add (ids : list string) (id : string) : list string :=
  if Contains ids id then ids else ids ++ [id].

Definition of_list (l : list string) : list string := fold_left Add l [].

End HashSet.

Definition Extract_DiskIdsFromVmJson (json : string) : list string :=
  let ids := [] in
  if PS.IsNullOrWhiteSpace json then ids else
  fold_left HashSet.Add (Regex.Matches Regex.managedDisk_at 0 json) ids.

(** A capture of the pattern at the start of [s]: the non-empty value of an
    [id] member that follows the opening brace after a [managedDisk] member
    name, with no closing brace in between; [rest] is the text after the
    value. *)
Definition captured_in (s cap rest : string) : Prop :=
  exists w1 w2 body w3 w4,
    s = Regex.quoted "managedDisk" +:+ w1 +:+ ":" +:+ w2 +:+ "{" +:+ body +:+
        Regex.quoted "id" +:+ w3 +:+ ":" +:+ w4 +:+ Regex.quoted cap +:+ rest /\
    PS.all_chars PS.IsWhiteSpace w1 = true /\
    PS.all_chars PS.IsWhiteSpace w2 = true /\
    PS.all_chars (fun c => negb (Ascii.eqb c "}")) body = true /\
    PS.all_chars PS.IsWhiteSpace w3 = true /\
    PS.all_chars PS.IsWhiteSpace w4 = true /\
    cap <> EmptyString /\
    PS.all_chars (fun c => negb (Regex.is_quote c)) cap = true.

(** ** Activity Log records *)

Module Op.

(** The fields of an Activity Log entry that the script reads.
    [Properties] is the text that [ConvertTo-Json -Depth 12] gives for the
    entry's properties, [None] when the entry has none or they cannot be
    rendered. *)
Record t : Type := mk {
  ResultType         : option string;
  EventTimestamp     : Z;
  ResourceType       : option string;
  OperationNameValue : option string;
  ResourceId         : option string;
  ResourceGroupName  : option string;
  Caller             : option string;
  CorrelationId      : option string;
  Properties         : option string;
  StatusMessage      : option string
}.

End Op.

(** Get-ActivityJson (lines 277-282) *)
Definition Get_ActivityJson (op : Op.t) : option string :=
  match Op.Properties op with
  | Some json => Some json
  | None =>
      match Op.StatusMessage op with
      | Some (String c m) => Some (String c m)
      | _ => None
      end
  end.

(** ** Disk change records (lines 438-453, 578-594) *)

Module DiskChange.

Inductive kind : Type := Created | Updated | Deleted.
Inductive origin : Type := ActivityLog | ARG.

(** The three last fields are note properties that a record may or may not
    have: [None] is an object without the property, [Some v] an object whose
    property holds [v] (possibly null). *)
Record t : Type := mk {
  ChangeType      : kind;
  DiskName        : option string;
  SubscriptionId  : option string;
  ResourceGroup   : option string;
  Location        : option string;
  EventTime       : Z;
  Operation       : option string;
  Caller          : option string;
  RequestedSizeGB : PS.Value;
  RequestedSku    : PS.Value;
  RequestedEnc    : PS.Value;
  Source          : origin;
  ResourceId      : option string;
  CorrelationId   : option string;
  CurrentSizeGB   : option PS.Value;
  CurrentSku      : option PS.Value;
  ManagedBy       : option PS.Value
}.

Definition is_Created (r : t) : bool :=
  match ChangeType r with
  | Created => true
  | _ => false
  end.

Definition set_Location (v : option string) (r : t) : t :=
  mk (ChangeType r) (DiskName r) (SubscriptionId r) (ResourceGroup r) v
     (EventTime r) (Operation r) (Caller r) (RequestedSizeGB r) (RequestedSku r)
     (RequestedEnc r) (Source r) (ResourceId r) (CorrelationId r)
     (CurrentSizeGB r) (CurrentSku r) (ManagedBy r).

(** [Add-Member -NotePropertyName ... -Force] for each optional property. *)
Definition add_CurrentSizeGB (v : PS.Value) (r : t) : t :=
  mk (ChangeType r) (DiskName r) (SubscriptionId r) (ResourceGroup r) (Location r)
     (EventTime r) (Operation r) (Caller r) (RequestedSizeGB r) (RequestedSku r)
     (RequestedEnc r) (Source r) (ResourceId r) (CorrelationId r)
     (Some v) (CurrentSku r) (ManagedBy r).
Definition add_CurrentSku (v : PS.Value) (r : t) : t :=
  mk (ChangeType r) (DiskName r) (SubscriptionId r) (ResourceGroup r) (Location r)
     (EventTime r) (Operation r) (Caller r) (RequestedSizeGB r) (RequestedSku r)
     (RequestedEnc r) (Source r) (ResourceId r) (CorrelationId r)
     (CurrentSizeGB r) (Some v) (ManagedBy r).
Definition add_ManagedBy (v : PS.Value) (r : t) : t :=
  mk (ChangeType r) (DiskName r) (SubscriptionId r) (ResourceGroup r) (Location r)
     (EventTime r) (Operation r) (Caller r) (RequestedSizeGB r) (RequestedSku r)
     (RequestedEnc r) (Source r) (ResourceId r) (CorrelationId r)
     (CurrentSizeGB r) (CurrentSku r) (Some v).

End DiskChange.

(** [$opNameVal -match '/suffix$']: the match ignores letter case, and [$]
    stands at the end of the text or before a line feed that ends it. *)
Definition has_suffix (suffix s : string) : bool :=
  (String.length suffix <=? String.length s)%nat &&
  String.eqb suffix
    (substring (String.length s - String.length suffix) (String.length suffix) s).

Definition match_end (suffix s : string) : bool :=
  let s := PS.ToLower s in
  has_suffix suffix s || has_suffix (suffix +:+ String "010" EmptyString) s.

(** Lines 432-436. *)
Definition classify (opNameVal : string) : DiskChange.kind :=
  let changeType := DiskChange.Updated in
  if match_end "/delete" opNameVal then DiskChange.Deleted
  else if match_end "/write" opNameVal then DiskChange.Updated
  else if match_end "/create" opNameVal then DiskChange.Created
  else changeType.

(** The body of the loop over the disk entries (lines 425-453). The integer
    conversion of Try-Parse-Field is the one operation of the body that can
    raise. *)
Definition disk_record (op : Op.t) : Exn DiskChange.t :=
  let ridInfo := Parse_ResourceId (PS.str (Op.ResourceId op)) in
  let json := PS.str (Get_ActivityJson op) in
  bind (Try_Parse_Field json "diskSizeGB") (fun sizeReq =>
  bind (Try_Parse_Field json "name") (fun skuReq =>
  bind (Try_Parse_Field json "encryptionType") (fun encReq =>
  let changeType := classify (PS.str (Op.OperationNameValue op)) in
  Return {|
    DiskChange.ChangeType      := changeType;
    DiskChange.DiskName        := ResourceId.Name ridInfo;
    DiskChange.SubscriptionId  := ResourceId.SubscriptionId ridInfo;
    DiskChange.ResourceGroup   := ResourceId.ResourceGroup ridInfo;
    DiskChange.Location        := Op.ResourceGroupName op;
    DiskChange.EventTime       := Op.EventTimestamp op;
    DiskChange.Operation       := Op.OperationNameValue op;
    DiskChange.Caller          := Op.Caller op;
    DiskChange.RequestedSizeGB := sizeReq;
    DiskChange.RequestedSku    := skuReq;
    DiskChange.RequestedEnc    := encReq;
    DiskChange.Source          := DiskChange.ActivityLog;
    DiskChange.ResourceId      := Op.ResourceId op;
    DiskChange.CorrelationId   := Op.CorrelationId op;
    DiskChange.CurrentSizeGB   := None;
    DiskChange.CurrentSku      := None;
    DiskChange.ManagedBy       := None
  |}))).

(** [foreach ($op in $logDisks)] inside the [try] of line 420: the first
    error leaves the loop; the records added before it stay. *)
Fixpoint disk_loop (ops : list Op.t) (diskChanges : list DiskChange.t)
  : list DiskChange.t :=
  match ops with
  | [] => diskChanges
  | op :: ops' =>
      match disk_record op with
      | Return r => disk_loop ops' (diskChanges ++ [r])
      | Throw => diskChanges
      end
  end.

(** The [Where-Object] filters of lines 422 and 463. *)
Definition is_disk_event (StartDate : Z) (op : Op.t) : bool :=
  PS.eq_op (Op.ResultType op) "Success" &&
  (StartDate <=? Op.EventTimestamp op)%Z &&
  PS.eq_op (Op.ResourceType op) "Microsoft.Compute/disks".

Definition is_vm_write (StartDate : Z) (op : Op.t) : bool :=
  PS.eq_op (Op.ResultType op) "Success" &&
  (StartDate <=? Op.EventTimestamp op)%Z &&
  PS.eq_op (Op.ResourceType op) "Microsoft.Compute/virtualMachines" &&
  PS.eq_op (Op.OperationNameValue op) "Microsoft.Compute/virtualMachines/write".

(** ** VM disk snapshots and attach/detach records *)

Module VmEvent.

Record t : Type := mk {
  Time    : Z;
  DiskIds : list string;
  Vm      : option string;
  SubId   : option string;
  Rg      : option string;
  Json    : option string;
  CorrId  : option string
}.

End VmEvent.

Module AttachChange.

Inductive kind : Type := Attached | Detached.

Record t : Type := mk {
  ChangeType     : kind;
  VmName         : option string;
  SubscriptionId : option string;
  ResourceGroup  : option string;
  DiskId         : string;
  EventTime      : Z;
  Source         : string;
  CorrelationId  : option string
}.

End AttachChange.

(** A PowerShell hashtable literal compares its string keys without regard
    to letter case: the finite map is keyed by the folded key. *)
Module Hashtable.

Definition get {V : Type} (h : gmap string V) (key : string) : option V :=
  h !! PS.ToLower key.

Definition set {V : Type} (h : gmap string V) (key : string) (v : V) : gmap string V :=
  <[PS.ToLower key := v]> h.

End Hashtable.

Definition vm_key (ridInfo : ResourceId.t) : string :=
  PS.format3 (PS.str (ResourceId.SubscriptionId ridInfo))
             (PS.str (ResourceId.ResourceGroup ridInfo))
             (PS.str (ResourceId.Name ridInfo)).

Definition vm_event (op : Op.t) : VmEvent.t :=
  let ridInfo := Parse_ResourceId (PS.str (Op.ResourceId op)) in
  let json := Get_ActivityJson op in
  let diskIds := Extract_DiskIdsFromVmJson (PS.str json) in
  {| VmEvent.Time    := Op.EventTimestamp op;
     VmEvent.DiskIds := diskIds;
     VmEvent.Vm      := ResourceId.Name ridInfo;
     VmEvent.SubId   := ResourceId.SubscriptionId ridInfo;
     VmEvent.Rg      := ResourceId.ResourceGroup ridInfo;
     VmEvent.Json    := json;
     VmEvent.CorrId  := Op.CorrelationId op |}.

(** The body of the loop over the VM write entries (lines 466-482). *)
Definition vm_step (vmEventsByVm : gmap string (list VmEvent.t)) (op : Op.t)
  : gmap string (list VmEvent.t) :=
  let key := vm_key (Parse_ResourceId (PS.str (Op.ResourceId op))) in
  let events :=
    match Hashtable.get vmEventsByVm key with
    | Some l => l
    | None => []
    end in
  Hashtable.set vmEventsByVm key (events ++ [vm_event op]).

(** ** Sort-Object *)

(** Sorting by a timestamp. The cmdlet promises no order among entries with
    equal timestamps; the model keeps them in their input order, and the
    properties below do not depend on it. *)
Fixpoint insert_by {A : Type} (key : A -> Z) (x : A) (l : list A) : list A :=
  match l with
  | [] => [x]
  | y :: l' => if (key x <=? key y)%Z then x :: y :: l' else y :: insert_by key x l'
  end.

Fixpoint Sort_Object {A : Type} (key : A -> Z) (l : list A) : list A :=
  match l with
  | [] => []
  | x :: l' => insert_by key x (Sort_Object key l')
  end.

(** ** Attachment diff (lines 490-534) *)

Definition attach_record (kind : AttachChange.kind) (who now : VmEvent.t) (id : string)
  : AttachChange.t :=
  {| AttachChange.ChangeType     := kind;
     AttachChange.VmName         := VmEvent.Vm who;
     AttachChange.SubscriptionId := VmEvent.SubId who;
     AttachChange.ResourceGroup  := VmEvent.Rg who;
     AttachChange.DiskId         := id;
     AttachChange.EventTime      := VmEvent.Time now;
     AttachChange.Source         := "ActivityLog(VM write)";
     AttachChange.CorrelationId  := VmEvent.CorrId now |}.

(** The body of the [for] loop for one pair of neighbours (lines 494-532):
    the Attached records first, then the Detached ones. *)
Definition diff_pair (prev curr : VmEvent.t) : list AttachChange.t :=
  let prevIds := HashSet.of_list (VmEvent.DiskIds prev) in
  let currIds := HashSet.of_list (VmEvent.DiskIds curr) in
  map (attach_record AttachChange.Attached curr curr)
      (List.filter (fun id => negb (HashSet.Contains prevIds id)) currIds)
  ++
  map (attach_record AttachChange.Detached prev curr)
      (List.filter (fun id => negb (HashSet.Contains currIds id)) prevIds).

(** [for ($i = 1; $i -lt $seq.Count; $i++)] over a sorted sequence. *)
Fixpoint diff_seq (seq : list VmEvent.t) : list AttachChange.t :=
  match seq with
  | prev :: (curr :: _) as rest => diff_pair prev curr ++ diff_seq rest
  | _ => []
  end.

(** The records of one VM key. *)
Definition diff_vm (events : list VmEvent.t) : list AttachChange.t :=
  diff_seq (Sort_Object VmEvent.Time events).

(** The loop over the keys of the hashtable; the order in which a hashtable
    enumerates its keys is not specified, here it is the order of
    [map_to_list]. *)
Definition derive_attach (vmEventsByVm : gmap string (list VmEvent.t))
  : list AttachChange.t :=
  flat_map (fun kv => diff_vm (snd kv)) (map_to_list vmEventsByVm).

(** ** Invoke-ArgQuery (lines 250-270) *)

Module Graph.

(** What one call of [Search-AzGraph] gives back: it raises, or it returns
    a response (possibly null) with a page of rows and a skip token. *)
Record Response (Row : Type) : Type := mkResponse {
  Data      : list Row;
  SkipToken : option string
}.
Arguments mkResponse {Row} _ _.
Arguments Data {Row} _.
Arguments SkipToken {Row} _.

Inductive Reply (Row : Type) : Type :=
  | Fails
  | Answers (resp : option (Response Row)).
Arguments Fails {Row}.
Arguments Answers {Row} resp.

(** The service for one query and one subscription set: the reply to the
    n-th request, given the skip token sent with it. *)
Definition Service (Row : Type) : Type := nat -> option string -> Reply Row.

(** What the function hands back: the rows, and whether the [catch] block
    ran (it writes the warning). *)
Record Outcome (Row : Type) : Type := mkOutcome {
  rows   : list Row;
  warned : bool
}.
Arguments mkOutcome {Row} _ _.
Arguments rows {Row} _.
Arguments warned {Row} _.

(** [if ($resp -and $resp.Data) { $all += $resp.Data }] *)
Definition collect {Row : Type} (resp : option (Response Row)) (all : list Row) : list Row :=
  match resp with
  | Some r =>
      match Data r with
      | [] => all
      | _ :: _ => all ++ Data r
      end
  | None => all
  end.

(** [$token = $resp.SkipToken], read as the condition of [while ($token)]:
    a null response has a null token, and the empty token is false too. *)
Definition next_token {Row : Type} (resp : option (Response Row)) : option string :=
  match resp with
  | Some r =>
      match SkipToken r with
      | Some (String c t) => Some (String c t)
      | _ => None
      end
  | None => None
  end.

(** The [while] loop; [fuel] bounds the number of further requests, [None]
    is a loop still running when the fuel is spent. *)
Fixpoint more_pages {Row : Type} (fuel : nat) (search : Service Row) (n : nat)
  (token : string) (all : list Row) : option (Outcome Row) :=
  match fuel with
  | O => None
  | S fuel' =>
      match search n (Some token) with
      | Fails => Some (mkOutcome all true)
      | Answers resp =>
          let all := collect resp all in
          match next_token resp with
          | Some token' => more_pages fuel' search (S n) token' all
          | None => Some (mkOutcome all false)
          end
      end
  end.

Definition Invoke_ArgQuery {Row : Type} (fuel : nat) (search : Service Row)
  : option (Outcome Row) :=
  let all := [] in
  match search O None with
  | Fails => Some (mkOutcome all true)
  | Answers resp =>
      let all := collect resp all in
      match next_token resp with
      | Some token => more_pages fuel search 1 token all
      | None => Some (mkOutcome all false)
      end
  end.

End Graph.

(** The skip token that the client sends with the n-th request when the
    responses [pages] came before it: none with the first request, then the
    token of the response just received. *)
Definition sent_token {Row : Type} (pages : list (Graph.Response Row)) (n : nat)
  : option string :=
  match n with
  | O => None
  | S m =>
      match pages !! m with
      | Some r => Graph.SkipToken r
      | None => None
      end
  end.

(** ** Inventory rows *)

(** A row of the query for the disks created since the start date (lines
    383-399). *)
Module NewDisk.

Record t : Type := mk {
  name           : string;
  subscriptionId : string;
  resourceGroup  : string;
  location       : option string;
  timeCreated    : Z;
  diskSizeGB     : PS.Value;
  sku            : PS.Value;
  osType         : PS.Value;
  managedBy      : PS.Value;
  encryption     : PS.Value
}.

End NewDisk.

(** A row of the disk metadata query (lines 539-543). *)
Module DiskMeta.

Record t : Type := mk {
  diskName       : string;
  subscriptionId : string;
  resourceGroup  : string;
  location       : option string;
  managedBy      : PS.Value;
  diskSizeGB     : PS.Value;
  sku            : PS.Value
}.

End DiskMeta.

(** ** Enrichment (lines 537-567) *)

(** The condition [-not $row.PSObject.Properties.Match(name)]. [Match]
    returns the collection of the properties of that name: one member when
    the record has the property, none otherwise. A collection with a member
    converts to true. For the empty collection the conversion is a
    parameter of the model, [empty_is_true]: PowerShell converts to true
    every object that is not an [IList], and the collection class that
    [Match] returns is not one ([empty_is_true = true], the property is
    then never added); read as a list, the empty collection converts to
    false ([empty_is_true = false], the property is added when absent). *)
Definition not_Match {A : Type} (empty_is_true : bool) (property : option A) : bool :=
  negb match property with
       | Some _ => true
       | None => empty_is_true
       end.

Definition meta_key (m : DiskMeta.t) : string :=
  PS.format3 (PS.ToLower (DiskMeta.subscriptionId m))
             (PS.ToLower (DiskMeta.resourceGroup m))
             (PS.ToLower (DiskMeta.diskName m)).

(** The state of the two loops: the variable [$key] and the index. *)
Definition index_step (st : option string * gmap string DiskMeta.t) (m : DiskMeta.t)
  : option string * gmap string DiskMeta.t :=
  let key := meta_key m in
  (Some key, Hashtable.set (snd st) key m).

(** The right-hand side of line 552. [ToLower] is a method call: on a null
    field it raises, and the assignment does not take place. *)
Definition row_key (row : DiskChange.t) : option string :=
  match DiskChange.SubscriptionId row, DiskChange.ResourceGroup row, DiskChange.DiskName row with
  | Some sub, Some rg, Some name =>
      Some (PS.format3 (PS.ToLower sub) (PS.ToLower rg) (PS.ToLower name))
  | _, _, _ => None
  end.

(** Lines 554-564. *)
Definition enrich_row (empty_is_true : bool) (meta : DiskMeta.t) (row : DiskChange.t)
  : DiskChange.t :=
  let row := DiskChange.set_Location (DiskMeta.location meta) row in
  let row :=
    if not_Match empty_is_true (DiskChange.CurrentSizeGB row)
    then DiskChange.add_CurrentSizeGB (DiskMeta.diskSizeGB meta) row else row in
  let row :=
    if not_Match empty_is_true (DiskChange.CurrentSku row)
    then DiskChange.add_CurrentSku (DiskMeta.sku meta) row else row in
  let row :=
    if not_Match empty_is_true (DiskChange.ManagedBy row)
    then DiskChange.add_ManagedBy (DiskMeta.managedBy meta) row else row in
  row.

(** The variable [$key] after line 552: the new key, or the value it had
    when the assignment failed. *)
Definition key_after (key : option string) (row : DiskChange.t) : option string :=
  match row_key row with
  | Some k => Some k
  | None => key
  end.

(** Lines 553-565 for the key at hand; [ContainsKey] of a null key raises
    and the [if] statement is skipped. *)
Definition enrich_with (empty_is_true : bool) (indexDisk : gmap string DiskMeta.t)
  (key : option string) (row : DiskChange.t) : DiskChange.t :=
  match key with
  | Some k =>
      match Hashtable.get indexDisk k with
      | Some meta => enrich_row empty_is_true meta row
      | None => row
      end
  | None => row
  end.

(** [foreach ($row in $diskChanges)]: the rows are updated in place. *)
Fixpoint enrich_loop (empty_is_true : bool) (indexDisk : gmap string DiskMeta.t)
  (key : option string) (diskChanges : list DiskChange.t) : list DiskChange.t :=
  match diskChanges with
  | [] => []
  | row :: rows =>
      let key := key_after key row in
      enrich_with empty_is_true indexDisk key row
        :: enrich_loop empty_is_true indexDisk key rows
  end.

(** The loop that fills the index (lines 545-549), from the value of
    [$key] when the block is entered. *)
Definition build_index (diskMeta : list DiskMeta.t) (key : option string)
  : option string * gmap string DiskMeta.t :=
  fold_left index_step diskMeta (key, ∅).

(** The enrichment block. *)
Definition enrich (empty_is_true : bool) (diskMeta : list DiskMeta.t)
  (key : option string) (diskChanges : list DiskChange.t) : list DiskChange.t :=
  let st := build_index diskMeta key in
  enrich_loop empty_is_true (snd st) (fst st) diskChanges.

(** Two records that agree on every field but the location and the three
    note properties, which are the fields that the enrichment writes. *)
Definition same_event (r r' : DiskChange.t) : Prop :=
  DiskChange.ChangeType r = DiskChange.ChangeType r' /\
  DiskChange.DiskName r = DiskChange.DiskName r' /\
  DiskChange.SubscriptionId r = DiskChange.SubscriptionId r' /\
  DiskChange.ResourceGroup r = DiskChange.ResourceGroup r' /\
  DiskChange.EventTime r = DiskChange.EventTime r' /\
  DiskChange.Operation r = DiskChange.Operation r' /\
  DiskChange.Caller r = DiskChange.Caller r' /\
  DiskChange.RequestedSizeGB r = DiskChange.RequestedSizeGB r' /\
  DiskChange.RequestedSku r = DiskChange.RequestedSku r' /\
  DiskChange.RequestedEnc r = DiskChange.RequestedEnc r' /\
  DiskChange.Source r = DiskChange.Source r' /\
  DiskChange.ResourceId r = DiskChange.ResourceId r' /\
  DiskChange.CorrelationId r = DiskChange.CorrelationId r'.

(** ** Integration of the newly created disks (lines 569-596) *)

(** The script block of the [Where-Object] of lines 571-576. *)
Definition same_created_disk (d : NewDisk.t) (r : DiskChange.t) : bool :=
  DiskChange.is_Created r &&
  PS.eq_op (DiskChange.SubscriptionId r) (NewDisk.subscriptionId d) &&
  PS.eq_op (DiskChange.ResourceGroup r) (NewDisk.resourceGroup d) &&
  PS.eq_op (DiskChange.DiskName r) (NewDisk.name d).

Definition exists_created (diskChanges : list DiskChange.t) (d : NewDisk.t)
  : list DiskChange.t :=
  List.filter (same_created_disk d) diskChanges.

Definition arg_record (d : NewDisk.t) : DiskChange.t :=
  {| DiskChange.ChangeType      := DiskChange.Created;
     DiskChange.DiskName        := Some (NewDisk.name d);
     DiskChange.SubscriptionId  := Some (NewDisk.subscriptionId d);
     DiskChange.ResourceGroup   := Some (NewDisk.resourceGroup d);
     DiskChange.Location        := NewDisk.location d;
     DiskChange.EventTime       := NewDisk.timeCreated d;
     DiskChange.Operation       := Some "ARG: timeCreated";
     DiskChange.Caller          := None;
     DiskChange.RequestedSizeGB := NewDisk.diskSizeGB d;
     DiskChange.RequestedSku    := NewDisk.sku d;
     DiskChange.RequestedEnc    := NewDisk.encryption d;
     DiskChange.Source          := DiskChange.ARG;
     DiskChange.ResourceId      := None;
     DiskChange.CorrelationId   := None;
     DiskChange.CurrentSizeGB   := None;
     DiskChange.CurrentSku      := None;
     DiskChange.ManagedBy       := Some (NewDisk.managedBy d) |}.

(** The body of the loop: [-not $exists] holds when the filter let nothing
    through. *)
Definition integrate_step (diskChanges : list DiskChange.t) (d : NewDisk.t)
  : list DiskChange.t :=
  match exists_created diskChanges d with
  | [] => diskChanges ++ [arg_record d]
  | _ :: _ => diskChanges
  end.

Definition integrate (newDisksArg : list NewDisk.t) (diskChanges : list DiskChange.t)
  : list DiskChange.t :=
  fold_left integrate_step newDisksArg diskChanges.

(** ** The script (lines 378-601) *)

Module Subscription.

(** What the environment answers for one subscription: whether
    [Set-AzContext] succeeds, and the result of each of the two reads of
    the Activity Log ([None] when the read raises). *)
Record t : Type := mk {
  ContextOk : bool;
  DiskLog   : option (list Op.t);
  VmLog     : option (list Op.t)
}.

End Subscription.

Record State : Type := mkState {
  diskChanges   : list DiskChange.t;
  attachChanges : list AttachChange.t;
  vmEventsByVm  : gmap string (list VmEvent.t);
  key           : option string
}.

(** The body of [foreach ($sub in $subsObj)] (lines 415-488). *)
Definition subscription_step (StartDate : Z) (st : State) (sub : Subscription.t) : State :=
  if negb (Subscription.ContextOk sub) then st else
  let diskChanges :=
    match Subscription.DiskLog sub with
    | Some log => disk_loop (List.filter (is_disk_event StartDate) log) (diskChanges st)
    | None => diskChanges st
    end in
  let logVms :=
    match Subscription.VmLog sub with
    | Some log => List.filter (is_vm_write StartDate) log
    | None => []
    end in
  mkState diskChanges (attachChanges st)
    (fold_left vm_step logVms (vmEventsByVm st))
    (match last (map (fun op => vm_key (Parse_ResourceId (PS.str (Op.ResourceId op)))) logVms) with
     | Some k => Some k
     | None => key st
     end).

(** The loop of lines 491-534; it leaves in [$key] the key enumerated
    last (here in its folded form; no later use of the variable tells the
    letter case). *)
Definition derive_step (st : State) : State :=
  mkState (diskChanges st)
    (attachChanges st ++ derive_attach (vmEventsByVm st))
    (vmEventsByVm st)
    (match last (map fst (map_to_list (vmEventsByVm st))) with
     | Some k => Some k
     | None => key st
     end).

(** The inputs of a run: the start date, whether Az.ResourceGraph is
    available, the results of Invoke-ArgQuery for the two inventory
    queries (they are not run when the module is missing), and the
    subscriptions. *)
Record Input : Type := mkInput {
  StartDate    : Z;
  argAvailable : bool;
  newDisks     : list NewDisk.t;
  diskMeta     : list DiskMeta.t;
  subsObj      : list Subscription.t
}.

(** Section 4 of the script and the attachment diff: the state after the
    loop over the subscriptions and the loop over the VM keys. *)
Definition activity_log_stage (i : Input) : State :=
  derive_step
    (fold_left (subscription_step (StartDate i)) (subsObj i) (mkState [] [] ∅ None)).

(** The disk changes after the enrichment block, which only runs when
    Az.ResourceGraph is available. *)
Definition enrichment_stage (empty_is_true : bool) (i : Input) : list DiskChange.t :=
  let st := activity_log_stage i in
  if argAvailable i
  then enrich empty_is_true (diskMeta i) (key st) (diskChanges st)
  else diskChanges st.

(** The two tables that the script exports. *)
Definition script (empty_is_true : bool) (i : Input)
  : list DiskChange.t * list AttachChange.t :=
  let newDisksArg := if argAvailable i then newDisks i else [] in
  let changes := integrate newDisksArg (enrichment_stage empty_is_true i) in
  (Sort_Object DiskChange.EventTime changes,
   Sort_Object AttachChange.EventTime (attachChanges (activity_log_stage i))).

(** Lines 369-372: when no subscription is left after the filters the
    script exits before it reads any log and writes no table; otherwise it
    goes on to the sections above. *)
Definition run (empty_is_true : bool) (i : Input)
  : option (list DiskChange.t * list AttachChange.t) :=
  match subsObj i with
  | [] => None
  | _ :: _ => Some (script empty_is_true i)
  end.

(** ** Payloads as documents

    The reading of the specification for the disk references of a VM
    payload: the payload is a JSON document, and the disks it references
    are the values of the member [id] of the objects that are the value of
    a member [managedDisk]. This part follows the words of the
    specification, not the script; it serves to compare the two. *)

Module Json.

Inductive t : Type :=
  | Null
  | Str (s : string)
  | Arr (items : list t)
  | Obj (members : list (string * t)).

(** The compact rendering of a document. *)
Fixpoint render (j : t) : string :=
  match j with
  | Null => "null"
  | Str s => Regex.quoted s
  | Arr items =>
      "[" +:+
      (fix items_text (l : list t) : string :=
         match l with
         | [] => EmptyString
         | x :: l' =>
             match l' with
             | [] => render x
             | _ :: _ => render x +:+ "," +:+ items_text l'
             end
         end) items +:+ "]"
  | Obj members =>
      "{" +:+
      (fix members_text (l : list (string * t)) : string :=
         match l with
         | [] => EmptyString
         | (k, v) :: l' =>
             match l' with
             | [] => Regex.quoted k +:+ ":" +:+ render v
             | _ :: _ => Regex.quoted k +:+ ":" +:+ render v +:+ "," +:+ members_text l'
             end
         end) members +:+ "}"
  end.

(** The string values of the member [id] of an object. *)
Definition id_values (j : t) : list string :=
  match j with
  | Obj members =>
      concat (map (fun kv =>
                     if String.eqb (fst kv) "id"
                     then match snd kv with
                          | Str s => [s]
                          | _ => []
                          end
                     else []) members)
  | _ => []
  end.

(** The [managedDisk.id] values of a document, in document order. *)
Fixpoint managedDisk_ids (j : t) : list string :=
  match j with
  | Arr items =>
      (fix in_items (l : list t) : list string :=
         match l with
         | [] => []
         | x :: l' => managedDisk_ids x ++ in_items l'
         end) items
  | Obj members =>
      (fix in_members (l : list (string * t)) : list string :=
         match l with
         | [] => []
         | (k, v) :: l' =>
             (if String.eqb k "managedDisk" then id_values v else [])
             ++ managedDisk_ids v ++ in_members l'
         end) members
  | _ => []
  end.

End Json.

(** ** Sample inputs *)

(** A VM whose OS disk and data disk are both encrypted with the same disk
    encryption set; in each [managedDisk] object the reference to the set
    comes before the id of the disk. *)
Definition encrypted_disk (id : string) : Json.t :=
  Json.Obj [("managedDisk",
             Json.Obj [("diskEncryptionSet", Json.Obj [("id", Json.Str "/des/set1")]);
                       ("id", Json.Str id)])].

Definition encrypted_vm : Json.t :=
  Json.Obj [("storageProfile",
             Json.Obj [("osDisk", encrypted_disk "/disks/os");
                       ("dataDisks", Json.Arr [encrypted_disk "/disks/data1"])])].

(** An inventory service that answers the first request with a full page
    and a skip token, and fails on the second request. *)
Definition fails_on_second_page : Graph.Service string :=
  fun n _ =>
    match n with
    | O => Graph.Answers (Some (Graph.mkResponse ["disk-a"; "disk-b"] (Some "page2")))
    | S _ => Graph.Fails
    end.

(** A disk that the inventory lists both as newly created and in the
    metadata query, in a subscription whose Activity Log has no entry. *)
Definition new_disk (name : string) : NewDisk.t :=
  {| NewDisk.name := name;
     NewDisk.subscriptionId := "sub-1";
     NewDisk.resourceGroup := "rg-1";
     NewDisk.location := Some "westeurope";
     NewDisk.timeCreated := 100;
     NewDisk.diskSizeGB := PS.Int 128;
     NewDisk.sku := PS.Str "Premium_LRS";
     NewDisk.osType := PS.Str EmptyString;
     NewDisk.managedBy := PS.Str EmptyString;
     NewDisk.encryption := PS.Str "EncryptionAtRestWithPlatformKey" |}.

Definition disk_meta (name : string) : DiskMeta.t :=
  {| DiskMeta.diskName := name;
     DiskMeta.subscriptionId := "sub-1";
     DiskMeta.resourceGroup := "rg-1";
     DiskMeta.location := Some "westeurope";
     DiskMeta.managedBy := PS.Str EmptyString;
     DiskMeta.diskSizeGB := PS.Int 128;
     DiskMeta.sku := PS.Str "Premium_LRS" |}.

Definition inventory_only : Input :=
  {| StartDate := 0;
     argAvailable := true;
     newDisks := [new_disk "disk1"];
     diskMeta := [disk_meta "disk1"];
     subsObj := [Subscription.mk true (Some []) (Some [])] |}.

(** An Activity Log entry that creates the disk [Disk1], and an inventory
    that lists the same disk as [disk1]. *)
Definition create_op : Op.t :=
  {| Op.ResultType := Some "Success";
     Op.EventTimestamp := 50;
     Op.ResourceType := Some "Microsoft.Compute/disks";
     Op.OperationNameValue := Some "Microsoft.Compute/disks/create";
     Op.ResourceId :=
       Some "/subscriptions/sub-1/resourceGroups/rg-1/providers/Microsoft.Compute/disks/Disk1";
     Op.ResourceGroupName := Some "rg-1";
     Op.Caller := Some "admin@example.org";
     Op.CorrelationId := Some "c-1";
     Op.Properties := None;
     Op.StatusMessage := None |}.

Definition logged_and_listed : Input :=
  {| StartDate := 0;
     argAvailable := true;
     newDisks := [new_disk "disk1"];
     diskMeta := [];
     subsObj := [Subscription.mk true (Some [create_op]) (Some [])] |}.

(** A VM, two snapshots of which were observed: the disks A and B at time
    1, the disks B and C at time 2. *)
Definition snapshot_t1 : VmEvent.t :=
  VmEvent.mk 1 ["A"; "B"] (Some "vm1") (Some "sub-1") (Some "rg-1") None (Some "c-1").

Definition snapshot_t2 : VmEvent.t :=
  VmEvent.mk 2 ["B"; "C"] (Some "vm1") (Some "sub-1") (Some "rg-1") None (Some "c-2").

(** The record that the script builds from [create_op]. *)
Definition created_Disk1 : DiskChange.t :=
  {| DiskChange.ChangeType      := DiskChange.Created;
     DiskChange.DiskName        := Some "Disk1";
     DiskChange.SubscriptionId  := Some "sub-1";
     DiskChange.ResourceGroup   := Some "rg-1";
     DiskChange.Location        := Some "rg-1";
     DiskChange.EventTime       := 50;
     DiskChange.Operation       := Some "Microsoft.Compute/disks/create";
     DiskChange.Caller          := Some "admin@example.org";
     DiskChange.RequestedSizeGB := PS.Null;
     DiskChange.RequestedSku    := PS.Null;
     DiskChange.RequestedEnc    := PS.Null;
     DiskChange.Source          := DiskChange.ActivityLog;
     DiskChange.ResourceId      :=
       Some "/subscriptions/sub-1/resourceGroups/rg-1/providers/Microsoft.Compute/disks/Disk1";
     DiskChange.CorrelationId   := Some "c-1";
     DiskChange.CurrentSizeGB   := None;
     DiskChange.CurrentSku      := None;
     DiskChange.ManagedBy       := None |}.




(** Two spellings of a resource group that differ in the letter case of
    the A with diaeresis (code units 196 and 228) only. *)
Definition RG_capital_A_diaeresis : string := "RG-" +:+ String "196"%char EmptyString.
Definition rg_small_a_diaeresis : string := "rg-" +:+ String "228"%char EmptyString.

(** A VM with an OS disk and two data disks, one of which is the OS disk
    again. *)
Definition plain_disk (id : string) : Json.t :=
  Json.Obj [("managedDisk",
             Json.Obj [("storageAccountType", Json.Str "Premium_LRS");
                       ("id", Json.Str id)])].

Definition plain_vm : Json.t :=
  Json.Obj [("storageProfile",
             Json.Obj [("osDisk", plain_disk "/disks/os");
                       ("dataDisks",
                        Json.Arr [plain_disk "/disks/data1"; plain_disk "/disks/os"])])].

(** ** Vocabulary of the further properties *)

(** The text with the pieces [parts] between slashes. *)
Fixpoint join_slash (parts : list string) : string :=
  match parts with
  | [] => EmptyString
  | p :: rest =>
      match rest with
      | [] => p
      | _ :: _ => p +:+ "/" +:+ join_slash rest
      end
  end.

Definition no_slash (s : string) : bool :=
  PS.all_chars (fun c => negb (Ascii.eqb c "/")) s.

(** An Activity Log entry for a disk whose payload names a size past the
    range of a 32-bit integer. *)
Definition oversized_op : Op.t :=
  {| Op.ResultType := Some "Success";
     Op.EventTimestamp := 60;
     Op.ResourceType := Some "Microsoft.Compute/disks";
     Op.OperationNameValue := Some "Microsoft.Compute/disks/write";
     Op.ResourceId :=
       Some "/subscriptions/sub-1/resourceGroups/rg-1/providers/Microsoft.Compute/disks/Disk2";
     Op.ResourceGroupName := Some "rg-1";
     Op.Caller := Some "admin@example.org";
     Op.CorrelationId := Some "c-2";
     Op.Properties := Some ("{" +:+ Regex.quoted "diskSizeGB" +:+ ": 99999999999}");
     Op.StatusMessage := None |}.

(** An inventory service with two pages, and one that sends a skip token
    with every page. *)
Definition two_pages : Graph.Service string :=
  fun n _ =>
    match n with
    | O => Graph.Answers (Some (Graph.mkResponse ["disk-a"; "disk-b"] (Some "page2")))
    | S _ => Graph.Answers (Some (Graph.mkResponse ["disk-c"] None))
    end.

Definition endless_pages : Graph.Service string :=
  fun _ _ => Graph.Answers (Some (Graph.mkResponse ["disk-a"] (Some "next"))).

(** A list in non-decreasing order of a timestamp: every entry is at most
    as late as each entry after it. *)
Fixpoint sorted_by {A : Type} (key : A -> Z) (l : list A) : Prop :=
  match l with
  | [] => True
  | x :: l' => Forall (fun y => (key x <= key y)%Z) l' /\ sorted_by key l'
  end.

(** A VM that gains a data disk with each of two writes. *)
Definition growing_t1 : VmEvent.t :=
  VmEvent.mk 10 ["OS"] (Some "vm1") (Some "sub-1") (Some "rg-1") None (Some "c-1").

Definition growing_t2 : VmEvent.t :=
  VmEvent.mk 11 ["OS"; "DATA1"] (Some "vm1") (Some "sub-1") (Some "rg-1") None (Some "c-2").

Definition growing_t3 : VmEvent.t :=
  VmEvent.mk 12 ["OS"; "DATA1"; "DATA2"] (Some "vm1") (Some "sub-1") (Some "rg-1") None
    (Some "c-3").


Definition new_disk_in (rg name : string) : NewDisk.t :=
  {| NewDisk.name := name;
     NewDisk.subscriptionId := "sub-1";
     NewDisk.resourceGroup := rg;
     NewDisk.location := Some "westeurope";
     NewDisk.timeCreated := 100;
     NewDisk.diskSizeGB := PS.Int 128;
     NewDisk.sku := PS.Str "Premium_LRS";
     NewDisk.osType := PS.Str EmptyString;
     NewDisk.managedBy := PS.Str EmptyString;
     NewDisk.encryption := PS.Str "EncryptionAtRestWithPlatformKey" |}.


(** The disk records that one subscription contributes (lines 416-458): none
    when its context cannot be set or the read of its disk log raises. *)
Definition records_of_subscription (StartDate : Z) (sub : Subscription.t)
  : list DiskChange.t :=
  if negb (Subscription.ContextOk sub) then [] else
  match Subscription.DiskLog sub with
  | Some log => disk_loop (List.filter (is_disk_event StartDate) log) []
  | None => []
  end.

(** The record of an Activity Log entry whose resource id stops at the
    resource group: it has no disk name. *)
Definition nameless_record : DiskChange.t :=
  {| DiskChange.ChangeType      := DiskChange.Updated;
     DiskChange.DiskName        := None;
     DiskChange.SubscriptionId  := Some "sub-1";
     DiskChange.ResourceGroup   := Some "rg-2";
     DiskChange.Location        := Some "rg-2";
     DiskChange.EventTime       := 70;
     DiskChange.Operation       := Some "Microsoft.Compute/disks/write";
     DiskChange.Caller          := None;
     DiskChange.RequestedSizeGB := PS.Null;
     DiskChange.RequestedSku    := PS.Null;
     DiskChange.RequestedEnc    := PS.Null;
     DiskChange.Source          := DiskChange.ActivityLog;
     DiskChange.ResourceId      := Some "/subscriptions/sub-1/resourceGroups/rg-2";
     DiskChange.CorrelationId   := None;
     DiskChange.CurrentSizeGB   := None;
     DiskChange.CurrentSku      := None;
     DiskChange.ManagedBy       := None |}.

(** ** The controller extension (lines 1-199)

    The two helpers of the list-report controller that compute on text,
    with the JavaScript operations they use. A JavaScript string is read as
    its code units 0..255, as above. *)

Module JS.

(** The class [\s] of a regular expression, which is also the white space
    that [parseInt] skips, on the code units 0..255: TAB..CR, SPACE and
    NBSP. *)
Definition is_space (c : ascii) : bool :=
  let n := nat_of_ascii c in
  ((9 <=? n)%nat && (n <=? 13)%nat) || (n =? 32)%nat || (n =? 160)%nat.

(** [s.includes(c)] for a one-character text. *)
Fixpoint includes (c : ascii) (s : string) : bool :=
  match s with
  | EmptyString => false
  | String x s' => Ascii.eqb x c || includes c s'
  end.

(** [s.substring(from, to)] with [from <= to]: both ends are cut down to the
    length of the text. *)
Definition substring (from to : nat) (s : string) : string :=
  String.substring from (to - from) s.

(** A Number that [parseInt] can give. *)
Inductive Number : Type :=
  | NaN
  | Finite (z : Z)
  | Infinity (negative : bool).

(** The Number value of a non-negative integer: the nearest double, ties
    to the even mantissa; past the largest double, Infinity. *)
Definition round_double (n : Z) : option Z :=
  let bits := (Z.log2 n + 1)%Z in
  if (bits <=? 53)%Z then Some n else
  let e := (bits - 53)%Z in
  let q := Z.shiftr n e in
  let r := Z.land n (2 ^ e - 1)%Z in
  let half := (2 ^ (e - 1))%Z in
  let q := if (half <? r)%Z || ((r =? half)%Z && Z.odd q) then (q + 1)%Z else q in
  let v := (q * 2 ^ e)%Z in
  if (2 ^ 1024 <=? v)%Z then None else Some v.

Definition to_Number (negative : bool) (n : Z) : Number :=
  match round_double n with
  | Some v => Finite (if negative then - v else v)
  | None => Infinity negative
  end.

(** The value of a digit in a radix of at most 36. *)
Definition digit_value (radix : Z) (c : ascii) : option Z :=
  let n := Z.of_nat (nat_of_ascii c) in
  let v :=
    if (48 <=? n)%Z && (n <=? 57)%Z then Some (n - 48)%Z
    else if (97 <=? n)%Z && (n <=? 122)%Z then Some (n - 87)%Z
    else if (65 <=? n)%Z && (n <=? 90)%Z then Some (n - 55)%Z
    else None in
  match v with
  | Some d => if (d <? radix)%Z then Some d else None
  | None => None
  end.

(** The integer that the longest run of digits at the start of [s]
    denotes; [acc] is [None] as long as no digit was read. *)
Fixpoint digits (radix : Z) (acc : option Z) (s : string) : option Z :=
  match s with
  | EmptyString => acc
  | String c s' =>
      match digit_value radix c with
      | Some d =>
          digits radix
            (Some (radix * match acc with Some a => a | None => 0 end + d)%Z) s'
      | None => acc
      end
  end.

Fixpoint trim_start (s : string) : string :=
  match s with
  | String c s' => if is_space c then trim_start s' else s
  | EmptyString => s
  end.

(** [parseInt(s)] without a radix: white space, a sign, the prefix 0x or 0X
    for radix 16, then the longest run of digits; no digit gives NaN. (Past
    20 significant decimal digits the standard lets an implementation
    approximate the value; the model rounds the exact value.) *)
Definition parseInt (s : string) : Number :=
  let s := trim_start s in
  let '(negative, s) :=
    match s with
    | String "-" s' => (true, s')
    | String "+" s' => (false, s')
    | _ => (false, s)
    end in
  let '(radix, s) :=
    match s with
    | String "0" (String "x" s') => (16%Z, s')
    | String "0" (String "X" s') => (16%Z, s')
    | _ => (10%Z, s)
    end in
  match digits radix None s with
  | Some n => to_Number negative n
  | None => NaN
  end.

(** [x > y] on Numbers: false as soon as one of them is NaN. *)
Definition gt (x y : Number) : bool :=
  match x, y with
  | NaN, _ | _, NaN => false
  | Finite a, Finite b => (b <? a)%Z
  | Infinity xneg, Infinity yneg => negb xneg && yneg
  | Infinity xneg, Finite _ => negb xneg
  | Finite _, Infinity yneg => yneg
  end.

(** The pieces of the patterns: a year [[1-9]\d{3}], one white space
    character, a dash; each gives the text after it. The class [\d] is
    [Regex.is_digit]. *)
Definition is_nonzero_digit (c : ascii) : bool :=
  let n := nat_of_ascii c in (49 <=? n)%nat && (n <=? 57)%nat.

Definition year (s : string) : option string :=
  match s with
  | String a (String b (String c (String d rest))) =>
      if is_nonzero_digit a && Regex.is_digit b && Regex.is_digit c
         && Regex.is_digit d
      then Some rest else None
  | _ => None
  end.

Definition space (s : string) : option string :=
  match s with
  | String c rest => if is_space c then Some rest else None
  | EmptyString => None
  end.

Definition dash (s : string) : option string :=
  match s with
  | String c rest => if Ascii.eqb c "-" then Some rest else None
  | EmptyString => None
  end.

Definition seq (p q : string -> option string) (s : string) : option string :=
  match p s with
  | Some rest => q rest
  | None => None
  end.

Definition matches (p : string -> option string) (s : string) : bool :=
  match p s with
  | Some _ => true
  | None => false
  end.

(** The four alternatives of the pattern for a range of years (line 180),
    in the order written, at the start of [s]. *)
Definition range_at (s : string) : bool :=
  matches (seq year (seq space (seq dash (seq space year)))) s
  || matches (seq year (seq dash year)) s
  || matches (seq year (seq dash (seq space year))) s
  || matches (seq year (seq space (seq dash year))) s.

(** [s.match(/pattern/g)] is not null: the pattern matches somewhere. *)
Fixpoint found (m : string -> bool) (s : string) : bool :=
  m s ||
  match s with
  | String _ s' => found m s'
  | EmptyString => false
  end.

End JS.

(** _checkCalendarYear (lines 177-188) *)
Definition _checkCalendarYear (sCalendarYear : string) : bool :=
  if JS.includes "-" sCalendarYear then
    if negb (JS.found JS.range_at sCalendarYear) then false else
    let aCalendarYears := PS.split "-" sCalendarYear in
    if JS.gt (JS.parseInt (PS.str (aCalendarYears !! 0%nat)))
             (JS.parseInt (PS.str (aCalendarYears !! 1%nat)))
    then false
    else true
  else
    JS.found (JS.matches JS.year) sCalendarYear.

(** _getDateFormatted (lines 190-196) *)
Definition _getDateFormatted (sDate : string) : string :=
  let sYear := JS.substring 0 4 sDate in
  let sMonth := JS.substring 4 6 sDate in
  let sDay := JS.substring 6 8 sDate in
  sYear +:+ "-" +:+ sMonth +:+ "-" +:+ sDay.

(** A text that is one year of the patterns, and the optional white space
    character of the range patterns. *)
Definition is_year (y : string) : Prop := JS.year y = Some EmptyString.

Definition blank_or_none (sp : string) : Prop :=
  sp = EmptyString \/ JS.space sp = Some EmptyString.

(** * Properties *)

Ltac split_ands := repeat match goal with |- _ /\ _ => split end.

(** ** Properties of Parse-ResourceId *)

(** C9 (as amended). The parser is a total function: no operation of its
    body can raise (the emptiness test, the split, the guarded index reads).
    It returns the identifier with all five fields null exactly on a blank
    input and on an input with fewer than three slash-delimited segments:
    from three segments on, whatever the input looks like, the third
    segment is the subscription. *)
Theorem Parse_ResourceId_null_iff_short (rid : string) :
  Parse_ResourceId rid = ResourceId.null <->
  PS.IsNullOrWhiteSpace rid = true \/ (length (PS.split "/" rid) < 3)%nat.
Proof.
  split.
  - intros Hnull.
    destruct (PS.IsNullOrWhiteSpace rid) eqn:Hblank; [now left | right].
    destruct (Nat.ltb_spec (length (PS.split "/" rid)) 3) as [Hlt | Hge];
      [assumption | exfalso].
    assert (ResourceId.SubscriptionId (Parse_ResourceId rid)
            = PS.split "/" rid !! 2%nat) as Hsub.
    { unfold Parse_ResourceId. rewrite Hblank. cbv zeta.
      destruct (Nat.leb_spec 3 (length (PS.split "/" rid))) as [_ | E]; [| lia].
      destruct (5 <=? length (PS.split "/" rid))%nat,
               (7 <=? length (PS.split "/" rid))%nat,
               (9 <=? length (PS.split "/" rid))%nat; reflexivity. }
    rewrite Hnull in Hsub. cbn [ResourceId.SubscriptionId ResourceId.null] in Hsub.
    symmetry in Hsub. apply lookup_ge_None in Hsub. lia.
  - intros [Hblank | Hshort]; unfold Parse_ResourceId.
    + now rewrite Hblank.
    + destruct (PS.IsNullOrWhiteSpace rid); [reflexivity |].
      cbv zeta.
      repeat match goal with
             | |- context [(?k <=? ?n)%nat] =>
                 let E := fresh "E" in
                 destruct (Nat.leb_spec k n) as [E | E]; [lia |]
             end.
      reflexivity.
Qed.

(** C9, counterexample. A text of three segments that is no resource path:
    the parser takes its third segment as the subscription, the identifier
    it returns is not the all-null one. *)
Lemma Parse_ResourceId_three_segments_counterexample :
  PS.IsNullOrWhiteSpace "foo/bar/baz" = false /\
  PS.split "/" "foo/bar/baz" = ["foo"; "bar"; "baz"] /\
  Parse_ResourceId "foo/bar/baz"
  = ResourceId.mk (Some "baz") None None None None /\
  Parse_ResourceId "foo/bar/baz" <> ResourceId.null.
Proof.
  vm_compute. split_ands; try reflexivity. discriminate.
Qed.

(** ** Properties of the disk-reference extraction *)

Lemma Contains_true (ids : list string) (id : string) :
  HashSet.Contains ids id = true <-> id ∈ ids.
Proof.
  unfold HashSet.Contains. rewrite existsb_exists, list_elem_of_In. split.
  - intros [x [Hx Heq]]. apply String.eqb_eq in Heq. now subst.
  - intros H. exists id. split; [assumption | apply String.eqb_refl].
Qed.

Lemma Contains_false (ids : list string) (id : string) :
  HashSet.Contains ids id = false <-> id ∉ ids.
Proof.
  rewrite <- Contains_true. destruct (HashSet.Contains ids id); split; intros; congruence.
Qed.

Lemma Add_elem (ids : list string) (id x : string) :
  x ∈ HashSet.Add ids id <-> x ∈ ids \/ x = id.
Proof.
  unfold HashSet.Add. destruct (HashSet.Contains ids id) eqn:E.
  - apply Contains_true in E. split; [now left | intros [H | ->]; assumption].
  - rewrite elem_of_app, list_elem_of_singleton. reflexivity.
Qed.

Lemma Add_NoDup (ids : list string) (id : string) :
  NoDup ids -> NoDup (HashSet.Add ids id).
Proof.
  intros H. unfold HashSet.Add. destruct (HashSet.Contains ids id) eqn:E; [assumption |].
  apply Contains_false in E.
  apply NoDup_app. split; [assumption | split].
  - intros x Hx Hx'. apply list_elem_of_singleton in Hx'. now subst.
  - apply NoDup_singleton.
Qed.

Lemma fold_Add_elem (l acc : list string) (x : string) :
  x ∈ fold_left HashSet.Add l acc <-> x ∈ acc \/ x ∈ l.
Proof.
  revert acc. induction l as [| a l IH]; intros acc; simpl.
  - rewrite elem_of_nil. intuition.
  - rewrite IH, Add_elem, elem_of_cons. intuition.
Qed.

Lemma fold_Add_NoDup (l acc : list string) :
  NoDup acc -> NoDup (fold_left HashSet.Add l acc).
Proof.
  revert acc. induction l as [| a l IH]; intros acc H; simpl; [assumption |].
  apply IH, Add_NoDup, H.
Qed.

Lemma of_list_elem (l : list string) (x : string) :
  x ∈ HashSet.of_list l <-> x ∈ l.
Proof.
  unfold HashSet.of_list. rewrite fold_Add_elem, elem_of_nil. intuition.
Qed.

Lemma of_list_NoDup (l : list string) : NoDup (HashSet.of_list l).
Proof. apply fold_Add_NoDup, NoDup_nil_2. Qed.

Lemma of_list_length (l : list string) :
  length (HashSet.of_list l) = length (remove_dups l).
Proof.
  apply Permutation_length, NoDup_Permutation.
  - apply of_list_NoDup.
  - apply NoDup_remove_dups.
  - intros x. now rewrite of_list_elem, elem_of_remove_dups.
Qed.

Lemma whitespace_not_dquote (c : ascii) :
  PS.IsWhiteSpace c = true -> Ascii.eqb Regex.dquote c = false.
Proof.
  destruct c as [[] [] [] [] [] [] [] []]; vm_compute; congruence.
Qed.

Lemma blank_no_match (m : string -> option (string * string)) (s : string) :
  (forall c s', PS.IsWhiteSpace c = true -> m (String c s') = None) ->
  PS.IsNullOrWhiteSpace s = true -> Regex.Matches m 0 s = [].
Proof.
  intros Hm. induction s as [| c s IH]; simpl; [reflexivity |].
  intros H. apply andb_prop in H as [Hc Hs].
  rewrite (Hm _ _ Hc). now apply IH.
Qed.

Lemma managedDisk_at_blank (c : ascii) (s : string) :
  PS.IsWhiteSpace c = true -> Regex.managedDisk_at (String c s) = None.
Proof.
  intros H. unfold Regex.managedDisk_at, Regex.quoted. cbn [Regex.lit].
  now rewrite (whitespace_not_dquote _ H).
Qed.

(** *** What the pattern captures *)

Lemma append_cons (c : ascii) (a b : string) : String c a +:+ b = String c (a +:+ b).
Proof. reflexivity. Qed.

Lemma append_empty (s : string) : EmptyString +:+ s = s.
Proof. reflexivity. Qed.

Lemma append_assoc (a b c : string) : (a +:+ b) +:+ c = a +:+ (b +:+ c).
Proof.
  induction a as [| x a IH]; [reflexivity |].
  rewrite !append_cons. now f_equal.
Qed.

Ltac norm_append :=
  repeat (rewrite append_assoc || rewrite append_cons || rewrite append_empty).

Lemma lit_sound (l s r : string) : Regex.lit l s = Some r -> s = l +:+ r.
Proof.
  revert s. induction l as [| a l IH]; intros s H; simpl in H.
  - now injection H as ->.
  - destruct s as [| c s]; [discriminate |].
    destruct (Ascii.eqb_spec a c) as [-> |]; [| discriminate].
    rewrite append_cons. f_equal. now apply IH.
Qed.

Lemma ws_sound (s : string) :
  exists w, s = w +:+ Regex.ws s /\ PS.all_chars PS.IsWhiteSpace w = true.
Proof.
  induction s as [| c s (w & Hs & Hw)]; simpl.
  - now exists EmptyString.
  - destruct (PS.IsWhiteSpace c) eqn:E.
    + exists (String c w). rewrite append_cons. simpl. rewrite E, Hw.
      split; [now f_equal | reflexivity].
    + now exists EmptyString.
Qed.

Lemma span_sound (p : ascii -> bool) (s run rest : string) :
  Regex.span p s = (run, rest) -> s = run +:+ rest /\ PS.all_chars p run = true.
Proof.
  revert run rest. induction s as [| c s IH]; intros run rest H; simpl in H.
  - injection H as <- <-. now split.
  - destruct (p c) eqn:E.
    + destruct (Regex.span p s) as [run' rest'] eqn:Es.
      injection H as <- <-. destruct (IH _ _ eq_refl) as [-> Hrun].
      rewrite append_cons. simpl. now rewrite E, Hrun.
    + injection H as <- <-. now split.
Qed.

Lemma colon_sound (s r : string) :
  Regex.colon s = Some r ->
  exists w1 w2, s = w1 +:+ ":" +:+ w2 +:+ r /\
                PS.all_chars PS.IsWhiteSpace w1 = true /\
                PS.all_chars PS.IsWhiteSpace w2 = true.
Proof.
  unfold Regex.colon. intros H.
  destruct (Regex.lit ":" (Regex.ws s)) as [s' |] eqn:E; [| discriminate].
  injection H as <-. apply lit_sound in E.
  destruct (ws_sound s) as (w1 & H1 & Hw1), (ws_sound s') as (w2 & H2 & Hw2).
  exists w1, w2. split_ands; auto.
  rewrite H1 at 1. rewrite E. f_equal. norm_append. f_equal. exact H2.
Qed.

Lemma id_member_sound (s cap rest : string) :
  Regex.id_member s = Some (cap, rest) ->
  exists w1 w2,
    s = Regex.quoted "id" +:+ w1 +:+ ":" +:+ w2 +:+ Regex.quoted cap +:+ rest /\
    PS.all_chars PS.IsWhiteSpace w1 = true /\
    PS.all_chars PS.IsWhiteSpace w2 = true /\
    cap <> EmptyString /\
    PS.all_chars (fun c => negb (Regex.is_quote c)) cap = true.
Proof.
  unfold Regex.id_member. intros H.
  destruct (Regex.lit (Regex.quoted "id") s) as [s1 |] eqn:E1; [| discriminate].
  destruct (Regex.colon s1) as [s2 |] eqn:E2; [| discriminate].
  destruct (Regex.lit (String Regex.dquote EmptyString) s2) as [s3 |] eqn:E3; [| discriminate].
  destruct (Regex.span (fun c => negb (Regex.is_quote c)) s3) as [run s4] eqn:E4.
  destruct run as [| c run]; [discriminate |].
  destruct (Regex.lit (String Regex.dquote EmptyString) s4) as [s5 |] eqn:E5; [| discriminate].
  injection H as <- <-.
  apply lit_sound in E1, E3, E5. apply span_sound in E4 as [E4 Hrun].
  apply colon_sound in E2 as (w1 & w2 & E2 & Hw1 & Hw2).
  exists w1, w2. split_ands; auto; try discriminate.
  rewrite E1, E2, E3, E4, E5. unfold Regex.quoted.
  now norm_append.
Qed.

Lemma braces_then_id_sound (s cap rest : string) :
  Regex.braces_then_id s = Some (cap, rest) ->
  exists body tail,
    s = body +:+ tail /\
    PS.all_chars (fun c => negb (Ascii.eqb c "}")) body = true /\
    Regex.id_member tail = Some (cap, rest).
Proof.
  induction s as [| c s IH]; cbn [Regex.braces_then_id]; intros H.
  - now exists EmptyString, EmptyString.
  - destruct (Ascii.eqb c "}") eqn:Ec.
    + now exists EmptyString, (String c s).
    + destruct (Regex.braces_then_id s) as [r |] eqn:Es.
      * injection H as ->. destruct (IH eq_refl) as (body & tail & -> & Hbody & Htail).
        exists (String c body), tail. rewrite append_cons. simpl. now rewrite Ec, Hbody.
      * now exists EmptyString, (String c s).
Qed.

Lemma managedDisk_at_sound (s cap rest : string) :
  Regex.managedDisk_at s = Some (cap, rest) -> captured_in s cap rest.
Proof.
  unfold Regex.managedDisk_at. intros H.
  destruct (Regex.lit (Regex.quoted "managedDisk") s) as [s1 |] eqn:E1; [| discriminate].
  destruct (Regex.colon s1) as [s2 |] eqn:E2; [| discriminate].
  destruct (Regex.lit "{" s2) as [s3 |] eqn:E3; [| discriminate].
  apply lit_sound in E1, E3.
  apply colon_sound in E2 as (w1 & w2 & E2 & Hw1 & Hw2).
  apply braces_then_id_sound in H as (body & tail & E4 & Hbody & Htail).
  apply id_member_sound in Htail as (w3 & w4 & E5 & Hw3 & Hw4 & Hne & Hcap).
  exists w1, w2, body, w3, w4. split_ands; auto.
  rewrite E1, E2, E3, E4, E5. unfold Regex.quoted.
  now norm_append.
Qed.

Lemma Matches_sound (m : string -> option (string * string)) (s : string)
  (skip : nat) (cap : string) :
  cap ∈ Regex.Matches m skip s ->
  exists before s' rest, s = before +:+ s' /\ m s' = Some (cap, rest).
Proof.
  revert skip. induction s as [| c s IH]; intros skip H; cbn [Regex.Matches] in H.
  - now apply elem_of_nil in H.
  - assert (Hlater : forall k, cap ∈ Regex.Matches m k s ->
              exists before s' rest, String c s = before +:+ s' /\ m s' = Some (cap, rest)).
    { intros k Hk. destruct (IH k Hk) as (before & s' & rest & -> & Hm).
      now exists (String c before), s', rest. }
    destruct skip as [| k]; [| now apply (Hlater k)].
    destruct (m (String c s)) as [[cap' rest'] |] eqn:Em; [| now apply (Hlater 0%nat)].
    apply elem_of_cons in H as [-> | H]; [| now apply (Hlater _ H)].
    now exists EmptyString, (String c s), rest'.
Qed.

(** The extraction returns a set: no id twice, and every id returned is
    the non-empty value of an [id] member that follows the opening brace of
    a [managedDisk] member with no closing brace in between. *)
Lemma Extract_DiskIds_sound (json : string) :
  NoDup (Extract_DiskIdsFromVmJson json) /\
  (forall id, id ∈ Extract_DiskIdsFromVmJson json ->
              exists before s rest, json = before +:+ s /\ captured_in s id rest).
Proof.
  unfold Extract_DiskIdsFromVmJson.
  destruct (PS.IsNullOrWhiteSpace json) eqn:E.
  - split; [apply NoDup_nil_2 |]. intros id Hid. now apply elem_of_nil in Hid.
  - split; [apply of_list_NoDup |].
    intros id Hid.
    apply of_list_elem, Matches_sound in Hid as (before & s & rest & Hjson & Hm).
    exists before, s, rest. split; [assumption |]. now apply managedDisk_at_sound.
Qed.

(** C8. The script announces the extraction of the [managedDisk.id]
    occurrences of the payload (line 298), and its pattern misses them when
    a [managedDisk] object holds a nested object before its own id: on the
    payload of a VM whose two disks name their disk encryption set first,
    the two distinct [managedDisk.id] values give one id, the id of the
    set, which is the id of no disk. *)
Theorem Extract_DiskIds_nested_object_before_id :
  Json.managedDisk_ids encrypted_vm = ["/disks/os"; "/disks/data1"] /\
  NoDup (Json.managedDisk_ids encrypted_vm) /\
  Extract_DiskIdsFromVmJson (Json.render encrypted_vm) = ["/des/set1"] /\
  length (Extract_DiskIdsFromVmJson (Json.render encrypted_vm)) = 1%nat /\
  length (Json.managedDisk_ids encrypted_vm) = 2%nat.
Proof.
  split_ands; try (vm_compute; reflexivity).
  change (Json.managedDisk_ids encrypted_vm) with ["/disks/os"; "/disks/data1"].
  apply NoDup_cons. split.
  - intros H. apply list_elem_of_singleton in H. discriminate H.
  - apply NoDup_singleton.
Qed.

(** The extraction on a payload whose [managedDisk] objects hold their id
    directly: the three references give the two disks. *)
Example Extract_DiskIds_plain_vm :
  Extract_DiskIdsFromVmJson (Json.render plain_vm) = ["/disks/os"; "/disks/data1"] /\
  Json.managedDisk_ids plain_vm = ["/disks/os"; "/disks/data1"; "/disks/os"].
Proof. vm_compute. split; reflexivity. Qed.

(** ** Properties of the attachment diff *)

Lemma NoDup_split (l : list string) (x : string) :
  NoDup l -> x ∈ l -> exists l1 l2, l = l1 ++ x :: l2 /\ (x ∉ l1) /\ (x ∉ l2).
Proof.
  intros Hnd Hx. apply list_elem_of_split in Hx as (l1 & l2 & ->).
  exists l1, l2. split; [reflexivity |].
  apply NoDup_app in Hnd as (_ & Hdisj & Hnd2).
  apply NoDup_cons in Hnd2 as [Hx2 _].
  split; [| assumption].
  intros Hx1. apply (Hdisj _ Hx1). now left.
Qed.

Lemma filter_elem {A : Type} (f : A -> bool) (l : list A) (x : A) :
  x ∈ List.filter f l <-> x ∈ l /\ f x = true.
Proof. rewrite !list_elem_of_In. apply List.filter_In. Qed.

Lemma map_elem {A B : Type} (f : A -> B) (l : list A) (y : B) :
  y ∈ map f l <-> exists x, y = f x /\ x ∈ l.
Proof.
  rewrite list_elem_of_In, in_map_iff. split; intros (x & H1 & H2); exists x.
  - apply list_elem_of_In in H2. auto.
  - apply list_elem_of_In in H2. auto.
Qed.

Lemma diff_seq_contains_pair (pre post : list VmEvent.t) (prev curr : VmEvent.t)
  (r : AttachChange.t) :
  r ∈ diff_pair prev curr -> r ∈ diff_seq (pre ++ prev :: curr :: post).
Proof.
  intros Hr. induction pre as [| a pre IH].
  - simpl. apply elem_of_app. now left.
  - change ((a :: pre) ++ prev :: curr :: post)
      with (a :: (pre ++ prev :: curr :: post)).
    destruct (pre ++ prev :: curr :: post) as [| b rest] eqn:E.
    + now destruct pre.
    + cbn [diff_seq]. apply elem_of_app. now right.
Qed.

(** C4. For two neighbours [prev], [curr] of the sorted sequence of a VM and
    a disk id held by [prev] and not by [curr], the engine emits for this
    pair exactly one Detached record for the id; it carries the time and
    the correlation id of [curr] and the VM name, subscription and resource
    group of [prev]; and it is part of the records of the VM. *)
Theorem detached_record_per_pair (events pre post : list VmEvent.t)
  (prev curr : VmEvent.t) (id : string) :
  Sort_Object VmEvent.Time events = pre ++ prev :: curr :: post ->
  id ∈ VmEvent.DiskIds prev ->
  id ∉ VmEvent.DiskIds curr ->
  let detached :=
    {| AttachChange.ChangeType     := AttachChange.Detached;
       AttachChange.VmName         := VmEvent.Vm prev;
       AttachChange.SubscriptionId := VmEvent.SubId prev;
       AttachChange.ResourceGroup  := VmEvent.Rg prev;
       AttachChange.DiskId         := id;
       AttachChange.EventTime      := VmEvent.Time curr;
       AttachChange.Source         := "ActivityLog(VM write)";
       AttachChange.CorrelationId  := VmEvent.CorrId curr |} in
  (exists before after,
      diff_pair prev curr = before ++ detached :: after /\
      forall r, r ∈ (before ++ after) ->
                ~ (AttachChange.ChangeType r = AttachChange.Detached /\
                   AttachChange.DiskId r = id)) /\
  detached ∈ diff_vm events.
Proof.
  intros Hsorted Hprev Hcurr detached.
  assert (Hpair : exists before after,
      diff_pair prev curr = before ++ detached :: after /\
      forall r, r ∈ (before ++ after) ->
                ~ (AttachChange.ChangeType r = AttachChange.Detached /\
                   AttachChange.DiskId r = id)).
  { unfold diff_pair.
    set (prevIds := HashSet.of_list (VmEvent.DiskIds prev)).
    set (currIds := HashSet.of_list (VmEvent.DiskIds curr)).
    destruct (NoDup_split prevIds id) as (l1 & l2 & Hsplit & Hl1 & Hl2).
    { apply of_list_NoDup. }
    { now apply of_list_elem. }
    assert (Hgone : negb (HashSet.Contains currIds id) = true).
    { apply negb_true_iff, Contains_false. unfold currIds. now rewrite of_list_elem. }
    rewrite Hsplit, List.filter_app. cbn [List.filter]. rewrite Hgone.
    rewrite map_app. cbn [map].
    eexists (_ ++ _), _. split.
    - rewrite <- app_assoc. reflexivity.
    - intros r Hr [Hkind Hid].
      rewrite <- app_assoc in Hr.
      repeat (apply elem_of_app in Hr as [Hr | Hr]);
        apply map_elem in Hr as (x & -> & Hx);
        apply filter_elem in Hx as [Hx _]; cbn in Hkind, Hid; subst x;
        try discriminate; contradiction. }
  split; [exact Hpair |].
  destruct Hpair as (before & after & Heq & _).
  unfold diff_vm. rewrite Hsorted. apply diff_seq_contains_pair.
  rewrite Heq. apply elem_of_app. right. now left.
Qed.

Lemma detached_record_per_pair_witness :
  AttachChange.mk AttachChange.Detached (Some "vm1") (Some "sub-1") (Some "rg-1")
    "A" 2 "ActivityLog(VM write)" (Some "c-2")
  ∈ diff_vm [snapshot_t2; snapshot_t1].
Proof.
  apply (detached_record_per_pair [snapshot_t2; snapshot_t1] [] [] snapshot_t1 snapshot_t2 "A").
  - reflexivity.
  - simpl. left.
  - simpl. intros H. apply elem_of_cons in H as [H | H]; [discriminate |].
    apply list_elem_of_singleton in H. discriminate.
Defined.

Lemma filter_none {A : Type} (f : A -> bool) (l : list A) :
  (forall x, x ∈ l -> f x = false) -> List.filter f l = [].
Proof.
  induction l as [| a l IH]; intros H; simpl; [reflexivity |].
  rewrite (H a) by now left. apply IH. intros x Hx. apply H. now right.
Qed.

Lemma filter_only (f : string -> bool) (l : list string) (c : string) :
  NoDup l -> c ∈ l -> f c = true ->
  (forall x, x ∈ l -> f x = true -> x = c) ->
  List.filter f l = [c].
Proof.
  intros Hnd Hc Hfc Honly.
  destruct (NoDup_split l c Hnd Hc) as (l1 & l2 & -> & H1 & H2).
  rewrite List.filter_app. cbn [List.filter]. rewrite Hfc.
  rewrite !filter_none; [reflexivity | |].
  - intros x Hx. destruct (f x) eqn:E; [| reflexivity].
    assert (x = c) by (apply Honly; [apply elem_of_app; right; now right | assumption]).
    now subst.
  - intros x Hx. destruct (f x) eqn:E; [| reflexivity].
    assert (x = c) by (apply Honly; [apply elem_of_app; now left | assumption]).
    now subst.
Qed.

Lemma Sort_Object_pair (e1 e2 : VmEvent.t) :
  (VmEvent.Time e1 < VmEvent.Time e2)%Z ->
  Sort_Object VmEvent.Time [e1; e2] = [e1; e2] /\
  Sort_Object VmEvent.Time [e2; e1] = [e1; e2].
Proof.
  intros Hlt. cbn [Sort_Object insert_by].
  destruct (Z.leb_spec (VmEvent.Time e1) (VmEvent.Time e2)); [| lia].
  destruct (Z.leb_spec (VmEvent.Time e2) (VmEvent.Time e1)); [lia |].
  split; reflexivity.
Qed.

(** C6. A VM with two snapshots, the earlier with the disks A and B, the
    later with the disks B and C: the diff yields the Attached record of C
    and the Detached record of A, both at the time of the later snapshot,
    and nothing else (nothing for B), in whatever order the two snapshots
    were observed. *)
Theorem diff_two_snapshots (e1 e2 : VmEvent.t) (A B C : string) :
  A <> B -> A <> C -> B <> C ->
  (VmEvent.Time e1 < VmEvent.Time e2)%Z ->
  (forall x, x ∈ VmEvent.DiskIds e1 <-> x = A \/ x = B) ->
  (forall x, x ∈ VmEvent.DiskIds e2 <-> x = B \/ x = C) ->
  let attached :=
    {| AttachChange.ChangeType     := AttachChange.Attached;
       AttachChange.VmName         := VmEvent.Vm e2;
       AttachChange.SubscriptionId := VmEvent.SubId e2;
       AttachChange.ResourceGroup  := VmEvent.Rg e2;
       AttachChange.DiskId         := C;
       AttachChange.EventTime      := VmEvent.Time e2;
       AttachChange.Source         := "ActivityLog(VM write)";
       AttachChange.CorrelationId  := VmEvent.CorrId e2 |} in
  let detached :=
    {| AttachChange.ChangeType     := AttachChange.Detached;
       AttachChange.VmName         := VmEvent.Vm e1;
       AttachChange.SubscriptionId := VmEvent.SubId e1;
       AttachChange.ResourceGroup  := VmEvent.Rg e1;
       AttachChange.DiskId         := A;
       AttachChange.EventTime      := VmEvent.Time e2;
       AttachChange.Source         := "ActivityLog(VM write)";
       AttachChange.CorrelationId  := VmEvent.CorrId e2 |} in
  diff_vm [e1; e2] = [attached; detached] /\
  diff_vm [e2; e1] = [attached; detached].
Proof.
  intros HAB HAC HBC Hlt H1 H2 attached detached.
  destruct (Sort_Object_pair e1 e2 Hlt) as [S1 S2].
  unfold diff_vm. rewrite S1, S2.
  assert (Hpair : diff_seq [e1; e2] = [attached; detached]); [| now split].
  cbn [diff_seq]. rewrite app_nil_r. unfold diff_pair.
  set (prevIds := HashSet.of_list (VmEvent.DiskIds e1)).
  set (currIds := HashSet.of_list (VmEvent.DiskIds e2)).
  assert (Hp : forall x, x ∈ prevIds <-> x = A \/ x = B)
    by (intros x; unfold prevIds; now rewrite of_list_elem).
  assert (Hc : forall x, x ∈ currIds <-> x = B \/ x = C)
    by (intros x; unfold currIds; now rewrite of_list_elem).
  rewrite (filter_only _ currIds C), (filter_only _ prevIds A); [reflexivity | ..].
  - apply of_list_NoDup.
  - apply Hp. now left.
  - apply negb_true_iff, Contains_false. rewrite Hc. intros [-> | ->]; congruence.
  - intros x Hx Hf. apply negb_true_iff, Contains_false in Hf. rewrite Hc in Hf.
    apply Hp in Hx as [-> | ->]; [reflexivity | exfalso; apply Hf; now left].
  - apply of_list_NoDup.
  - apply Hc. now right.
  - apply negb_true_iff, Contains_false. rewrite Hp. intros [-> | ->]; congruence.
  - intros x Hx Hf. apply negb_true_iff, Contains_false in Hf. rewrite Hp in Hf.
    apply Hc in Hx as [-> | ->]; [exfalso; apply Hf; now right | reflexivity].
Qed.

Lemma diff_two_snapshots_witness :
  diff_vm [VmEvent.mk 1 ["A"; "B"] (Some "vm1") (Some "sub-1") (Some "rg-1") None (Some "c-1");
           VmEvent.mk 2 ["B"; "C"] (Some "vm1") (Some "sub-1") (Some "rg-1") None (Some "c-2")]
  = [AttachChange.mk AttachChange.Attached (Some "vm1") (Some "sub-1") (Some "rg-1")
       "C" 2 "ActivityLog(VM write)" (Some "c-2");
     AttachChange.mk AttachChange.Detached (Some "vm1") (Some "sub-1") (Some "rg-1")
       "A" 2 "ActivityLog(VM write)" (Some "c-2")].
Proof.
  apply (diff_two_snapshots
           (VmEvent.mk 1 ["A"; "B"] (Some "vm1") (Some "sub-1") (Some "rg-1") None (Some "c-1"))
           (VmEvent.mk 2 ["B"; "C"] (Some "vm1") (Some "sub-1") (Some "rg-1") None (Some "c-2"))
           "A" "B" "C").
  - discriminate.
  - discriminate.
  - discriminate.
  - simpl. lia.
  - intros x. simpl. rewrite !elem_of_cons, elem_of_nil. intuition.
  - intros x. simpl. rewrite !elem_of_cons, elem_of_nil. intuition.
Defined.

(** C7. A VM key under which a single snapshot was observed yields no
    attach/detach record: its own diff is empty, and the records of the
    engine are those it derives from the other keys. *)
Theorem single_snapshot_no_records (vmEventsByVm : gmap string (list VmEvent.t))
  (key : string) (e : VmEvent.t) :
  vmEventsByVm !! key = Some [e] ->
  diff_vm [e] = [] /\
  derive_attach vmEventsByVm ≡ₚ derive_attach (delete key vmEventsByVm).
Proof.
  intros Hkey. split; [reflexivity |].
  unfold derive_attach.
  rewrite <- (map_to_list_delete vmEventsByVm key [e] Hkey).
  reflexivity.
Qed.

Lemma single_snapshot_no_records_witness :
  diff_vm [VmEvent.mk 1 ["A"] (Some "vm1") (Some "sub-1") (Some "rg-1") None None] = [].
Proof.
  apply (single_snapshot_no_records
           {[ "sub-1|rg-1|vm1" :=
                [VmEvent.mk 1 ["A"] (Some "vm1") (Some "sub-1") (Some "rg-1") None None] ]}
           "sub-1|rg-1|vm1").
  apply lookup_singleton_eq.
Defined.

(** ** Properties of Invoke-ArgQuery *)

Lemma collect_Some {Row : Type} (r : Graph.Response Row) (all : list Row) :
  Graph.collect (Some r) all = all ++ Graph.Data r.
Proof.
  unfold Graph.collect. destruct (Graph.Data r); [now rewrite app_nil_r | reflexivity].
Qed.

Lemma next_token_SkipToken {Row : Type} (r : Graph.Response Row) (token : string) :
  Graph.next_token (Some r) = Some token -> Graph.SkipToken r = Some token.
Proof.
  unfold Graph.next_token. destruct (Graph.SkipToken r) as [[| c t] |]; congruence.
Qed.

Lemma more_pages_until_failure {Row : Type} (search : Graph.Service Row)
  (rest done : list (Graph.Response Row)) (fuel : nat) (token : string) (all : list Row) :
  (forall n r, (done ++ rest) !! n = Some r ->
     search n (sent_token (done ++ rest) n) = Graph.Answers (Some r) /\
     Graph.next_token (Some r) <> None) ->
  search (length (done ++ rest)) (sent_token (done ++ rest) (length (done ++ rest)))
    = Graph.Fails ->
  sent_token (done ++ rest) (length done) = Some token ->
  (length rest < fuel)%nat ->
  Graph.more_pages fuel search (length done) token all
  = Some (Graph.mkOutcome (all ++ concat (map Graph.Data rest)) true).
Proof.
  revert done fuel token all.
  induction rest as [| r rest IH]; intros done fuel token all Hok Hfail Htok Hfuel.
  - destruct fuel as [| fuel]; [simpl in Hfuel; lia |].
    rewrite app_nil_r in *. cbn [Graph.more_pages].
    now rewrite <- Htok, Hfail.
  - destruct fuel as [| fuel]; [simpl in Hfuel; lia |].
    cbn [Graph.more_pages].
    assert (Hr : (done ++ r :: rest) !! length done = Some r)
      by (rewrite lookup_app_r, Nat.sub_diag by lia; reflexivity).
    destruct (Hok _ _ Hr) as [Hsearch Hnext].
    rewrite <- Htok, Hsearch.
    destruct (Graph.next_token (Some r)) as [token' |] eqn:Etok; [| congruence].
    rewrite collect_Some.
    replace (S (length done)) with (length (done ++ [r]))
      by (rewrite length_app; simpl; lia).
    rewrite (IH (done ++ [r]) fuel token' (all ++ Graph.Data r)).
    + cbn [map concat]. now rewrite app_assoc.
    + now rewrite <- app_assoc.
    + now rewrite <- app_assoc.
    + rewrite <- app_assoc. cbn [app].
      rewrite length_app. cbn [length]. rewrite Nat.add_1_r.
      cbn [sent_token]. rewrite Hr. now apply next_token_SkipToken.
    + simpl in Hfuel. lia.
Qed.

(** C3 (as amended). When a request of the paginated query raises, the
    client does not propagate the error: the [catch] block runs and the
    call returns the rows of the pages received before the failure. The
    result is empty when the first request fails. *)
Theorem Invoke_ArgQuery_failure_keeps_received_pages {Row : Type}
  (search : Graph.Service Row) (pages : list (Graph.Response Row)) (fuel : nat) :
  (forall n r, pages !! n = Some r ->
     search n (sent_token pages n) = Graph.Answers (Some r) /\
     Graph.next_token (Some r) <> None) ->
  search (length pages) (sent_token pages (length pages)) = Graph.Fails ->
  (length pages <= fuel)%nat ->
  Graph.Invoke_ArgQuery fuel search
  = Some (Graph.mkOutcome (concat (map Graph.Data pages)) true).
Proof.
  intros Hok Hfail Hfuel. unfold Graph.Invoke_ArgQuery.
  destruct pages as [| r rest].
  - simpl in Hfail. now rewrite Hfail.
  - destruct (Hok 0%nat r eq_refl) as [Hsearch Hnext].
    simpl in Hsearch. rewrite Hsearch.
    destruct (Graph.next_token (Some r)) as [token |] eqn:Etok; [| congruence].
    rewrite collect_Some.
    apply (more_pages_until_failure search rest [r] fuel token); try assumption.
    simpl. now apply next_token_SkipToken.
Qed.

Lemma Invoke_ArgQuery_failure_keeps_received_pages_witness :
  Graph.Invoke_ArgQuery 1 fails_on_second_page
  = Some (Graph.mkOutcome ["disk-a"; "disk-b"] true).
Proof.
  apply (Invoke_ArgQuery_failure_keeps_received_pages fails_on_second_page
           [Graph.mkResponse ["disk-a"; "disk-b"] (Some "page2")] 1).
  - intros [| n] r H; simpl in H; [| discriminate].
    injection H as <-. split; [reflexivity | discriminate].
  - reflexivity.
  - simpl. lia.
Defined.

(** C3, counterexample. The first page arrives with a skip token and the
    second request raises: the query has failed, the warning is written,
    and the call returns the two rows of the first page, not the empty
    result. *)
Lemma Invoke_ArgQuery_partial_rows_counterexample :
  fails_on_second_page 1 (Some "page2") = Graph.Fails /\
  exists out,
    Graph.Invoke_ArgQuery 1 fails_on_second_page = Some out /\
    Graph.warned out = true /\
    Graph.rows out = ["disk-a"; "disk-b"] /\
    Graph.rows out <> [].
Proof.
  split; [reflexivity |].
  eexists. split; [reflexivity |]. repeat split. discriminate.
Qed.

(** ** Properties of the enrichment *)


Lemma same_event_refl (r : DiskChange.t) : same_event r r.
Proof. unfold same_event. repeat split. Qed.

Lemma same_event_trans (r1 r2 r3 : DiskChange.t) :
  same_event r1 r2 -> same_event r2 r3 -> same_event r1 r3.
Proof. unfold same_event. intuition congruence. Qed.

Lemma enrich_row_same_event (b : bool) (meta : DiskMeta.t) (row : DiskChange.t) :
  same_event row (enrich_row b meta row).
Proof.
  unfold enrich_row, not_Match.
  destruct row as [? ? ? ? ? ? ? ? ? ? ? ? ? ? [?|] [?|] [?|]], b;
    unfold same_event; cbn; repeat split.
Qed.

Lemma enrich_row_Location (b : bool) (meta : DiskMeta.t) (row : DiskChange.t) :
  DiskChange.Location (enrich_row b meta row) = DiskMeta.location meta.
Proof.
  unfold enrich_row, not_Match.
  destruct row as [? ? ? ? ? ? ? ? ? ? ? ? ? ? [?|] [?|] [?|]], b; reflexivity.
Qed.

Lemma enrich_row_keeps (b : bool) (meta : DiskMeta.t) (row : DiskChange.t) :
  (forall v, DiskChange.CurrentSizeGB row = Some v ->
             DiskChange.CurrentSizeGB (enrich_row b meta row) = Some v) /\
  (forall v, DiskChange.CurrentSku row = Some v ->
             DiskChange.CurrentSku (enrich_row b meta row) = Some v) /\
  (forall v, DiskChange.ManagedBy row = Some v ->
             DiskChange.ManagedBy (enrich_row b meta row) = Some v).
Proof.
  unfold enrich_row, not_Match.
  destruct row as [? ? ? ? ? ? ? ? ? ? ? ? ? ? [?|] [?|] [?|]], b;
    cbn; repeat split; intros; congruence.
Qed.

Lemma enrich_with_cases (b : bool) (indexDisk : gmap string DiskMeta.t)
  (key : option string) (row : DiskChange.t) :
  enrich_with b indexDisk key row = row \/
  exists k meta, key = Some k /\ Hashtable.get indexDisk k = Some meta /\
                 enrich_with b indexDisk key row = enrich_row b meta row.
Proof.
  unfold enrich_with. destruct key as [k |]; [| now left].
  destruct (Hashtable.get indexDisk k) as [meta |] eqn:E; [| now left].
  right. now exists k, meta.
Qed.

Lemma enrich_loop_lookup (b : bool) (indexDisk : gmap string DiskMeta.t)
  (rows : list DiskChange.t) (key : option string) (n : nat) (row : DiskChange.t) :
  rows !! n = Some row ->
  exists key', enrich_loop b indexDisk key rows !! n
               = Some (enrich_with b indexDisk (key_after key' row) row).
Proof.
  revert key n. induction rows as [| a rows IH]; intros key n H; [discriminate |].
  destruct n as [| n]; cbn [enrich_loop].
  - injection H as ->. now exists key.
  - apply (IH (key_after key a) n H).
Qed.

Lemma enrich_loop_elem (b : bool) (indexDisk : gmap string DiskMeta.t)
  (rows : list DiskChange.t) (key : option string) (r : DiskChange.t) :
  r ∈ enrich_loop b indexDisk key rows ->
  exists key' row, row ∈ rows /\ r = enrich_with b indexDisk key' row.
Proof.
  revert key. induction rows as [| a rows IH]; intros key H; cbn [enrich_loop] in H.
  - now apply elem_of_nil in H.
  - apply elem_of_cons in H as [-> | H].
    + eexists _, a. split; [now left | reflexivity].
    + destruct (IH _ H) as (key' & row & Hrow & ->).
      exists key', row. split; [now right | reflexivity].
Qed.

Lemma fold_index_lookup (diskMeta : list DiskMeta.t)
  (st : option string * gmap string DiskMeta.t) (k : string) (meta : DiskMeta.t) :
  snd (fold_left index_step diskMeta st) !! k = Some meta ->
  snd st !! k = Some meta \/ meta ∈ diskMeta.
Proof.
  revert st. induction diskMeta as [| m l IH]; intros st H; simpl in H; [now left |].
  apply IH in H as [H | H]; [| right; now right].
  unfold index_step, Hashtable.set in H. cbn [snd] in H.
  apply lookup_insert_Some in H as [[_ <-] | [_ H]]; [right; now left | now left].
Qed.

Lemma build_index_elem (diskMeta : list DiskMeta.t) (key : option string)
  (k : string) (meta : DiskMeta.t) :
  Hashtable.get (snd (build_index diskMeta key)) k = Some meta -> meta ∈ diskMeta.
Proof.
  unfold Hashtable.get, build_index. intros H.
  apply fold_index_lookup in H as [H | H]; [| assumption].
  cbn [snd] in H. now rewrite lookup_empty in H.
Qed.

(** C5. The enrichment pass keeps every CurrentSizeGB, CurrentSku and
    ManagedBy value that a record already has; on a key match it overwrites
    the location with that of the inventory row, whatever the record held;
    it changes no other field. *)
Theorem enrichment_keeps_present_values (empty_is_true : bool)
  (diskMeta : list DiskMeta.t) (key : option string) (rows : list DiskChange.t)
  (n : nat) (row : DiskChange.t) :
  rows !! n = Some row ->
  exists row',
    enrich empty_is_true diskMeta key rows !! n = Some row' /\
    (forall v, DiskChange.CurrentSizeGB row = Some v ->
               DiskChange.CurrentSizeGB row' = Some v) /\
    (forall v, DiskChange.CurrentSku row = Some v ->
               DiskChange.CurrentSku row' = Some v) /\
    (forall v, DiskChange.ManagedBy row = Some v ->
               DiskChange.ManagedBy row' = Some v) /\
    (forall k meta,
        row_key row = Some k ->
        Hashtable.get (snd (build_index diskMeta key)) k = Some meta ->
        DiskChange.Location row' = DiskMeta.location meta) /\
    same_event row row'.
Proof.
  intros Hrow. unfold enrich.
  destruct (enrich_loop_lookup empty_is_true (snd (build_index diskMeta key)) rows
              (fst (build_index diskMeta key)) n row Hrow) as [key' Hn].
  eexists. split; [exact Hn |].
  set (idx := snd (build_index diskMeta key)).
  assert (Hkey : forall k, row_key row = Some k -> key_after key' row = Some k)
    by (intros k Hk; unfold key_after; now rewrite Hk).
  unfold enrich_with.
  destruct (key_after key' row) as [k' |] eqn:Ek.
  - destruct (Hashtable.get idx k') as [meta' |] eqn:Eg.
    + destruct (enrich_row_keeps empty_is_true meta' row) as (H1 & H2 & H3).
      split_ands; auto using enrich_row_same_event.
      intros k meta Hk Hget. rewrite enrich_row_Location.
      apply Hkey in Hk. congruence.
    + split_ands; auto using same_event_refl.
      intros k meta Hk Hget. apply Hkey in Hk. congruence.
  - split_ands; auto using same_event_refl.
    intros k meta Hk Hget. apply Hkey in Hk. congruence.
Qed.

Lemma enrichment_keeps_present_values_witness :
  exists row',
    enrich false [disk_meta "disk1"] None [arg_record (new_disk "disk1")] !! 0%nat
      = Some row' /\
    DiskChange.ManagedBy row' = Some (PS.Str EmptyString).
Proof.
  destruct (enrichment_keeps_present_values false [disk_meta "disk1"] None
              [arg_record (new_disk "disk1")] 0 (arg_record (new_disk "disk1")))
    as (row' & Hrow' & _ & _ & Hmanaged & _).
  - reflexivity.
  - exists row'. split; [exact Hrow' |]. apply Hmanaged. reflexivity.
Defined.

(** The value that [$key] holds when the enrichment block is entered does
    not matter: a non-empty inventory overwrites it before it is read, and
    with an empty inventory no key is found in the index. *)
Lemma enrich_loop_empty_index (b : bool) (rows : list DiskChange.t) (key : option string) :
  enrich_loop b ∅ key rows = rows.
Proof.
  revert key. induction rows as [| row rows IH]; intros key; cbn [enrich_loop];
    [reflexivity |].
  rewrite IH. f_equal. unfold enrich_with, Hashtable.get.
  destruct (key_after key row); [now rewrite lookup_empty | reflexivity].
Qed.

Lemma enrich_initial_key_irrelevant (b : bool) (diskMeta : list DiskMeta.t)
  (key : option string) (rows : list DiskChange.t) :
  enrich b diskMeta key rows = enrich b diskMeta None rows.
Proof.
  unfold enrich, build_index. destruct diskMeta as [| m l].
  - cbn [fold_left fst snd]. now rewrite !enrich_loop_empty_index.
  - reflexivity.
Qed.

(** ** Properties of the aggregation *)

Lemma insert_by_Permutation {A : Type} (key : A -> Z) (x : A) (l : list A) :
  insert_by key x l ≡ₚ x :: l.
Proof.
  induction l as [| y l IH]; simpl; [reflexivity |].
  destruct (key x <=? key y)%Z; [reflexivity |].
  rewrite IH. apply Permutation_swap.
Qed.

Lemma Sort_Object_Permutation {A : Type} (key : A -> Z) (l : list A) :
  Sort_Object key l ≡ₚ l.
Proof.
  induction l as [| x l IH]; simpl; [reflexivity |].
  now rewrite insert_by_Permutation, IH.
Qed.

Lemma disk_record_fields (op : Op.t) (r : DiskChange.t) :
  disk_record op = Return r ->
  DiskChange.Location r = Op.ResourceGroupName op /\
  DiskChange.Source r = DiskChange.ActivityLog /\
  DiskChange.CurrentSizeGB r = None /\
  DiskChange.CurrentSku r = None /\
  DiskChange.ManagedBy r = None.
Proof.
  unfold disk_record, bind. intros H.
  repeat match type of H with
         | match ?e with Return _ => _ | Throw => _ end = _ =>
             destruct e; [| discriminate]
         end.
  injection H as <-. repeat split.
Qed.

Lemma disk_loop_elem (ops : list Op.t) (acc : list DiskChange.t) (r : DiskChange.t) :
  r ∈ disk_loop ops acc ->
  r ∈ acc \/ exists op, op ∈ ops /\ disk_record op = Return r.
Proof.
  revert acc. induction ops as [| op ops IH]; intros acc H; simpl in H; [now left |].
  destruct (disk_record op) as [r' |] eqn:E; [| now left].
  apply IH in H as [H | (op' & Hop' & Hrec)].
  - apply elem_of_app in H as [H | H]; [now left |].
    apply list_elem_of_singleton in H as ->.
    right. exists op. split; [now left | assumption].
  - right. exists op'. split; [now right | assumption].
Qed.

(** Where a record of the Activity Log comes from: an entry of the disk
    log of one of the subscriptions. *)
Lemma subscription_step_elem (StartDate : Z) (st : State) (sub : Subscription.t)
  (r : DiskChange.t) :
  r ∈ diskChanges (subscription_step StartDate st sub) ->
  r ∈ diskChanges st \/
  exists log op, Subscription.DiskLog sub = Some log /\ op ∈ log /\
                 disk_record op = Return r.
Proof.
  unfold subscription_step.
  destruct (negb (Subscription.ContextOk sub)); [now left |].
  cbn [diskChanges].
  destruct (Subscription.DiskLog sub) as [log |]; [| now left].
  intros H. apply disk_loop_elem in H as [H | (op & Hop & Hrec)]; [now left |].
  right. exists log, op. split_ands; auto.
  now apply filter_elem in Hop as [Hop _].
Qed.

Lemma subscriptions_elem (StartDate : Z) (subs : list Subscription.t) (st : State)
  (r : DiskChange.t) :
  r ∈ diskChanges (fold_left (subscription_step StartDate) subs st) ->
  r ∈ diskChanges st \/
  exists sub log op, sub ∈ subs /\ Subscription.DiskLog sub = Some log /\ op ∈ log /\
                     disk_record op = Return r.
Proof.
  revert st. induction subs as [| sub subs IH]; intros st H; simpl in H; [now left |].
  apply IH in H as [H | (sub' & log & op & Hsub & Hlog & Hop & Hrec)].
  - apply subscription_step_elem in H as [H | (log & op & Hlog & Hop & Hrec)]; [now left |].
    right. exists sub, log, op. split_ands; auto. now left.
  - right. exists sub', log, op. split_ands; auto. now right.
Qed.

Lemma activity_log_stage_elem (i : Input) (r : DiskChange.t) :
  r ∈ diskChanges (activity_log_stage i) ->
  exists sub log op, sub ∈ subsObj i /\ Subscription.DiskLog sub = Some log /\
                     op ∈ log /\ disk_record op = Return r.
Proof.
  unfold activity_log_stage, derive_step. cbn [diskChanges]. intros H.
  apply subscriptions_elem in H as [H | H]; [| assumption].
  now apply elem_of_nil in H.
Qed.

Lemma enrichment_stage_elem (b : bool) (i : Input) (r : DiskChange.t) :
  r ∈ enrichment_stage b i ->
  exists r0, r0 ∈ diskChanges (activity_log_stage i) /\
    (r = r0 \/
     argAvailable i = true /\
     exists meta, meta ∈ diskMeta i /\ r = enrich_row b meta r0).
Proof.
  unfold enrichment_stage. destruct (argAvailable i).
  - unfold enrich. intros H.
    apply enrich_loop_elem in H as (key' & row & Hrow & ->).
    exists row. split; [assumption |].
    destruct (enrich_with_cases b (snd (build_index (diskMeta i) (key (activity_log_stage i))))
                key' row) as [-> | (k & meta & _ & Hget & ->)]; [now left |].
    right. split; [reflexivity |]. exists meta.
    split; [| reflexivity]. now apply build_index_elem in Hget.
  - intros H. exists r. split; [assumption | now left].
Qed.

Lemma integrate_step_elem (l : list DiskChange.t) (d : NewDisk.t) (r : DiskChange.t) :
  r ∈ integrate_step l d -> r ∈ l \/ r = arg_record d.
Proof.
  unfold integrate_step. destruct (exists_created l d); [| now left].
  intros H. apply elem_of_app in H as [H | H]; [now left |].
  apply list_elem_of_singleton in H. now right.
Qed.

Lemma integrate_elem (newDisksArg : list NewDisk.t) (l : list DiskChange.t)
  (r : DiskChange.t) :
  r ∈ integrate newDisksArg l ->
  r ∈ l \/ exists d, d ∈ newDisksArg /\ r = arg_record d.
Proof.
  unfold integrate. revert l.
  induction newDisksArg as [| d ds IH]; intros l H; simpl in H; [now left |].
  apply IH in H as [H | (d' & Hd' & ->)].
  - apply integrate_step_elem in H as [H | ->]; [now left |].
    right. exists d. split; [now left | reflexivity].
  - right. exists d'. split; [now right | reflexivity].
Qed.

Lemma run_script (b : bool) (i : Input)
  (changes : list DiskChange.t) (attaches : list AttachChange.t) :
  run b i = Some (changes, attaches) -> changes = fst (script b i).
Proof.
  unfold run. destruct (subsObj i); [discriminate |].
  intros H. assert (E : script b i = (changes, attaches)) by congruence.
  now rewrite E.
Qed.

Lemma script_elem (b : bool) (i : Input) (r : DiskChange.t) :
  r ∈ fst (script b i) ->
  r ∈ enrichment_stage b i \/
  argAvailable i = true /\ exists d, d ∈ newDisks i /\ r = arg_record d.
Proof.
  unfold script. cbn [fst]. rewrite Sort_Object_Permutation. intros H.
  apply integrate_elem in H as [H | (d & Hd & ->)]; [now left |].
  destruct (argAvailable i); [| now apply elem_of_nil in Hd].
  right. split; [reflexivity |]. now exists d.
Qed.

Lemma enrichment_stage_Source (b : bool) (i : Input) (r : DiskChange.t) :
  r ∈ enrichment_stage b i -> DiskChange.Source r = DiskChange.ActivityLog.
Proof.
  intros H. apply enrichment_stage_elem in H as (r0 & Hr0 & Hr).
  apply activity_log_stage_elem in Hr0 as (sub & log & op & _ & _ & _ & Hrec).
  apply disk_record_fields in Hrec as (_ & Hsrc & _).
  destruct Hr as [-> | (_ & meta & _ & ->)]; [assumption |].
  destruct (enrich_row_same_event b meta r0) as (_ & _ & _ & _ & _ & _ & _ & _ & _ & _ & <- & _).
  assumption.
Qed.

(** C10. A record that comes from the Activity Log is built with the
    resource group name of its entry in the Location field; in the final
    list its Location is still that name, unless the enrichment pass has
    overwritten it with the location of an inventory row. *)
Theorem activity_record_location (empty_is_true : bool) (i : Input)
  (changes : list DiskChange.t) (attaches : list AttachChange.t) (r : DiskChange.t) :
  run empty_is_true i = Some (changes, attaches) ->
  r ∈ changes ->
  DiskChange.Source r = DiskChange.ActivityLog ->
  exists sub log op r0,
    sub ∈ subsObj i /\ Subscription.DiskLog sub = Some log /\ op ∈ log /\
    disk_record op = Return r0 /\
    DiskChange.Location r0 = Op.ResourceGroupName op /\
    same_event r0 r /\
    (DiskChange.Location r = Op.ResourceGroupName op \/
     argAvailable i = true /\
     exists meta, meta ∈ diskMeta i /\ DiskChange.Location r = DiskMeta.location meta).
Proof.
  intros Hrun Hr Hsrc.
  apply run_script in Hrun. rewrite Hrun in Hr. clear Hrun.
  apply script_elem in Hr as [Hr | (_ & d & _ & ->)]; [| discriminate].
  apply enrichment_stage_elem in Hr as (r0 & Hr0 & Hr).
  apply activity_log_stage_elem in Hr0 as (sub & log & op & Hsub & Hlog & Hop & Hrec).
  exists sub, log, op, r0.
  destruct (disk_record_fields op r0 Hrec) as (Hloc & _).
  split_ands; auto.
  - destruct Hr as [-> | (_ & meta & _ & ->)];
      [apply same_event_refl | apply enrich_row_same_event].
  - destruct Hr as [-> | (Harg & meta & Hmeta & ->)]; [now left |].
    right. split; [assumption |]. exists meta. split; [assumption |].
    apply enrich_row_Location.
Qed.

Lemma activity_record_location_witness :
  exists op,
    op ∈ [create_op] /\
    (DiskChange.Location created_Disk1 = Op.ResourceGroupName op \/
     exists meta, meta ∈ diskMeta logged_and_listed /\
                  DiskChange.Location created_Disk1 = DiskMeta.location meta).
Proof.
  destruct (activity_record_location false logged_and_listed [created_Disk1] []
              created_Disk1)
    as (sub & log & op & r0 & Hsub & Hlog & Hop & _ & _ & _ & Hloc).
  - reflexivity.
  - left.
  - reflexivity.
  - apply list_elem_of_singleton in Hsub. subst sub.
    injection Hlog as <-.
    exists op. split; [exact Hop |].
    destruct Hloc as [Hloc | (_ & meta & Hmeta & Hloc)]; [now left |].
    right. now exists meta.
Defined.

(** C1 (as amended). The enrichment pass runs before the inventory records
    are added: every record it sees comes from the Activity Log, and a
    record of source ARG in the final list is the record built from a row
    of the newly created disks, with the location and ManagedBy of that
    row and without CurrentSizeGB and CurrentSku. *)
Theorem graph_records_added_after_enrichment (empty_is_true : bool) (i : Input)
  (changes : list DiskChange.t) (attaches : list AttachChange.t) :
  run empty_is_true i = Some (changes, attaches) ->
  (forall r, r ∈ enrichment_stage empty_is_true i ->
             DiskChange.Source r = DiskChange.ActivityLog) /\
  (forall r, r ∈ changes ->
             DiskChange.Source r = DiskChange.ARG ->
             exists d, d ∈ newDisks i /\
                       r = arg_record d /\
                       DiskChange.Location r = NewDisk.location d /\
                       DiskChange.ManagedBy r = Some (NewDisk.managedBy d) /\
                       DiskChange.CurrentSizeGB r = None /\
                       DiskChange.CurrentSku r = None).
Proof.
  intros Hrun. apply run_script in Hrun. subst changes. split.
  - apply enrichment_stage_Source.
  - intros r Hr Hsrc.
    apply script_elem in Hr as [Hr | (_ & d & Hd & ->)].
    + apply enrichment_stage_Source in Hr. congruence.
    + exists d. split_ands; auto.
Qed.

Lemma graph_records_added_after_enrichment_witness :
  exists d, d ∈ newDisks inventory_only /\
            arg_record (new_disk "disk1") = arg_record d /\
            DiskChange.Location (arg_record (new_disk "disk1")) = NewDisk.location d /\
            DiskChange.ManagedBy (arg_record (new_disk "disk1")) = Some (NewDisk.managedBy d) /\
            DiskChange.CurrentSizeGB (arg_record (new_disk "disk1")) = None /\
            DiskChange.CurrentSku (arg_record (new_disk "disk1")) = None.
Proof.
  apply (graph_records_added_after_enrichment false inventory_only
           [arg_record (new_disk "disk1")] []).
  - reflexivity.
  - left.
  - reflexivity.
Defined.

Lemma ieq_true (a b : string) : PS.ieq a b = true <-> PS.ToLower a = PS.ToLower b.
Proof. unfold PS.ieq. apply String.eqb_eq. Qed.

Lemma eq_op_true (x : option string) (s : string) :
  PS.eq_op x s = true <-> exists a, x = Some a /\ PS.ToLower a = PS.ToLower s.
Proof.
  unfold PS.eq_op. destruct x as [a |].
  - rewrite ieq_true. split; [intros H; now exists a | intros (a' & [= <-] & H); exact H].
  - split; [discriminate | intros (a & H & _); discriminate].
Qed.

Lemma same_created_disk_true (d : NewDisk.t) (r : DiskChange.t) :
  same_created_disk d r = true <->
  DiskChange.ChangeType r = DiskChange.Created /\
  exists sub rg name,
    DiskChange.SubscriptionId r = Some sub /\
    DiskChange.ResourceGroup r = Some rg /\
    DiskChange.DiskName r = Some name /\
    PS.ToLower sub = PS.ToLower (NewDisk.subscriptionId d) /\
    PS.ToLower rg = PS.ToLower (NewDisk.resourceGroup d) /\
    PS.ToLower name = PS.ToLower (NewDisk.name d).
Proof.
  unfold same_created_disk. rewrite !andb_true_iff, !eq_op_true.
  unfold DiskChange.is_Created. split.
  - intros [[[Hc (sub & Hs & Hs')] (rg & Hr & Hr')] (name & Hn & Hn')].
    split; [destruct (DiskChange.ChangeType r); congruence |].
    exists sub, rg, name. split_ands; assumption.
  - intros [Hc (sub & rg & name & Hs & Hr & Hn & Hs' & Hr' & Hn')].
    rewrite Hc. split_ands; eauto.
Qed.












(** The letter case of the Latin-1 capitals is ignored like that of A..Z;
    the multiplication sign and the division sign, 32 places apart, are
    two characters. *)
Example ieq_Latin1_capitals :
  PS.ieq RG_capital_A_diaeresis rg_small_a_diaeresis = true /\
  PS.ieq (String "215"%char EmptyString) (String "247"%char EmptyString) = false.
Proof. vm_compute. split; reflexivity. Qed.




(** C1, counterexample. A disk that the inventory lists as newly created
    and for which the metadata query has a row under the same key: the
    record added for it has taken no part in the enrichment, it has neither
    CurrentSizeGB nor CurrentSku. *)
Lemma graph_record_not_enriched_counterexample :
  run true inventory_only = Some ([arg_record (new_disk "disk1")], []) /\
  run false inventory_only = Some ([arg_record (new_disk "disk1")], []) /\
  row_key (arg_record (new_disk "disk1")) = Some "sub-1|rg-1|disk1" /\
  Hashtable.get (snd (build_index (diskMeta inventory_only) None)) "sub-1|rg-1|disk1"
    = Some (disk_meta "disk1") /\
  DiskChange.CurrentSizeGB (arg_record (new_disk "disk1")) = None /\
  DiskChange.CurrentSku (arg_record (new_disk "disk1")) = None.
Proof.
  vm_compute. split_ands; reflexivity.
Qed.

(** ** Further properties of Parse-ResourceId *)

Lemma split_no_slash (p : string) : no_slash p = true -> PS.split "/" p = [p].
Proof.
  induction p as [| c p IH]; [reflexivity |].
  unfold no_slash. cbn [PS.all_chars PS.split]. intros H.
  apply andb_prop in H as [Hc Hp]. apply negb_true_iff in Hc. rewrite Hc.
  now rewrite (IH Hp).
Qed.

Lemma split_segment (p rest : string) :
  no_slash p = true ->
  PS.split "/" (p +:+ "/" +:+ rest) = p :: PS.split "/" rest.
Proof.
  induction p as [| c p IH]; intros H.
  - reflexivity.
  - unfold no_slash in H. cbn [PS.all_chars] in H.
    apply andb_prop in H as [Hc Hp]. apply negb_true_iff in Hc.
    rewrite append_cons. cbn [PS.split]. rewrite Hc. now rewrite (IH Hp).
Qed.

Lemma split_join_slash (parts : list string) :
  Forall (fun p => no_slash p = true) parts -> parts <> [] ->
  PS.split "/" (join_slash parts) = parts.
Proof.
  induction 1 as [| p rest Hp Hrest IH]; intros Hne; [congruence |].
  cbn [join_slash]. destruct rest as [| q rest].
  - now apply split_no_slash.
  - rewrite split_segment by assumption. f_equal. now apply IH.
Qed.

Lemma slash_not_blank (p rest : string) :
  PS.IsNullOrWhiteSpace (p +:+ "/" +:+ rest) = false.
Proof.
  unfold PS.IsNullOrWhiteSpace. induction p as [| c p IH]; [reflexivity |].
  rewrite append_cons. cbn [PS.all_chars]. rewrite IH. apply andb_false_r.
Qed.

(** X1. On a path with nine segments or more, none of which holds a slash,
    the parser returns segment 2 as subscription, segment 4 as resource
    group, segments 6 and 7 joined by a slash as provider, segment 7 as
    type and segment 8 as name; what follows segment 8 is ignored. *)
Theorem Parse_ResourceId_full_path
  (p0 p1 sub p3 rg p5 ns ty name : string) (more : list string) :
  Forall (fun p => no_slash p = true)
         ([p0; p1; sub; p3; rg; p5; ns; ty; name] ++ more) ->
  Parse_ResourceId (join_slash ([p0; p1; sub; p3; rg; p5; ns; ty; name] ++ more))
  = ResourceId.mk (Some sub) (Some rg) (Some (ns +:+ "/" +:+ ty)) (Some ty) (Some name).
Proof.
  intros Hparts. unfold Parse_ResourceId.
  rewrite (split_join_slash _ Hparts) by discriminate.
  cbn [app join_slash]. rewrite slash_not_blank.
  reflexivity.
Qed.

Lemma Parse_ResourceId_full_path_witness :
  Parse_ResourceId
    "/subscriptions/sub-1/resourceGroups/rg-1/providers/Microsoft.Compute/disks/Disk1"
  = ResourceId.mk (Some "sub-1") (Some "rg-1") (Some "Microsoft.Compute/disks")
      (Some "disks") (Some "Disk1").
Proof.
  apply (Parse_ResourceId_full_path EmptyString "subscriptions" "sub-1" "resourceGroups"
           "rg-1" "providers" "Microsoft.Compute" "disks" "Disk1" []).
  repeat constructor.
Defined.

(** X2. A path that stops after the provider namespace (seven segments)
    gets a provider that ends with a slash, the read of the missing
    segment 7 being null, and null type and name; a path of eight segments
    gets the provider of namespace and type, and still null type and
    name. *)
Theorem Parse_ResourceId_provider_only
  (p0 p1 sub p3 rg p5 ns ty : string) :
  Forall (fun p => no_slash p = true) [p0; p1; sub; p3; rg; p5; ns; ty] ->
  Parse_ResourceId (join_slash [p0; p1; sub; p3; rg; p5; ns])
  = ResourceId.mk (Some sub) (Some rg) (Some (ns +:+ "/")) None None /\
  Parse_ResourceId (join_slash [p0; p1; sub; p3; rg; p5; ns; ty])
  = ResourceId.mk (Some sub) (Some rg) (Some (ns +:+ "/" +:+ ty)) None None.
Proof.
  intros Hparts.
  assert (H7 : Forall (fun p => no_slash p = true) [p0; p1; sub; p3; rg; p5; ns]).
  { repeat (apply Forall_cons in Hparts as [? Hparts]). repeat constructor; assumption. }
  unfold Parse_ResourceId.
  rewrite (split_join_slash _ Hparts), (split_join_slash _ H7) by discriminate.
  cbn [join_slash]. rewrite !slash_not_blank.
  split; reflexivity.
Qed.

Lemma Parse_ResourceId_provider_only_witness :
  Parse_ResourceId "/subscriptions/sub-1/resourceGroups/rg-1/providers/Microsoft.Compute"
  = ResourceId.mk (Some "sub-1") (Some "rg-1") (Some "Microsoft.Compute/") None None.
Proof.
  apply (Parse_ResourceId_provider_only EmptyString "subscriptions" "sub-1" "resourceGroups"
           "rg-1" "providers" "Microsoft.Compute" "disks").
  repeat constructor.
Defined.

(** ** Properties of Try-Parse-Field and of the loop over the disk entries *)

Lemma Match_sound (m : string -> option string) (s v : string) :
  Regex.Match m s = Some v -> exists before s', s = before +:+ s' /\ m s' = Some v.
Proof.
  induction s as [| c s IH]; cbn [Regex.Match].
  - destruct (m EmptyString) eqn:E; [| discriminate].
    intros [= ->]. now exists EmptyString, EmptyString.
  - destruct (m (String c s)) eqn:E.
    + intros [= ->]. now exists EmptyString, (String c s).
    + intros H. destruct (IH H) as (before & s' & -> & Hm).
      now exists (String c before), s'.
Qed.

Lemma quoted_body_sound_bounded (n : nat) (s b : string) :
  (String.length s <= n)%nat ->
  Regex.quoted_body s = Some b -> exists rest, s = b +:+ String Regex.dquote rest.
Proof.
  revert s b. induction n as [| n IH]; intros s b Hlen;
    (destruct s as [| c s]; [discriminate |]); [simpl in Hlen; lia |].
  cbn [Regex.quoted_body]. simpl in Hlen.
  destruct (Regex.is_quote c) eqn:Eq.
  - intros [= <-]. unfold Regex.is_quote in Eq. apply Ascii.eqb_eq in Eq as ->.
    now exists s.
  - destruct (Ascii.eqb c "\").
    + destruct s as [| d s]; [discriminate |].
      destruct (Ascii.eqb d "010"); [discriminate |].
      destruct (Regex.quoted_body s) as [r |] eqn:Er; [| discriminate].
      intros [= <-]. destruct (IH s r) as [rest ->]; [simpl in Hlen; lia | assumption |].
      now exists rest.
    + destruct (Regex.quoted_body s) as [r |] eqn:Er; [| discriminate].
      intros [= <-]. destruct (IH s r) as [rest ->]; [lia | assumption |].
      now exists rest.
Qed.

Lemma quoted_body_sound (s b : string) :
  Regex.quoted_body s = Some b -> exists rest, s = b +:+ String Regex.dquote rest.
Proof. apply (quoted_body_sound_bounded (String.length s)). lia. Qed.

Lemma field_at_sound (f s val : string) :
  Regex.field_at f s = Some val ->
  exists w1 w2 rest,
    s = Regex.quoted f +:+ w1 +:+ ":" +:+ w2 +:+ val +:+ rest /\
    PS.all_chars PS.IsWhiteSpace w1 = true /\
    PS.all_chars PS.IsWhiteSpace w2 = true /\
    (val <> EmptyString /\ PS.all_chars Regex.is_digit val = true \/
     exists b, val = Regex.quoted b).
Proof.
  unfold Regex.field_at. intros H.
  destruct (Regex.lit (Regex.quoted f) s) as [s1 |] eqn:E1; [| discriminate].
  destruct (Regex.colon s1) as [s2 |] eqn:E2; [| discriminate].
  apply lit_sound in E1. apply colon_sound in E2 as (w1 & w2 & E2 & Hw1 & Hw2).
  destruct (Regex.span Regex.is_digit s2) as [run rest] eqn:E3.
  apply span_sound in E3 as [E3 Hrun]. cbn [fst] in H.
  destruct run as [| d ds].
  - destruct (Regex.lit (String Regex.dquote EmptyString) s2) as [s3 |] eqn:E4; [| discriminate].
    apply lit_sound in E4.
    destruct (Regex.quoted_body s3) as [b |] eqn:E5; [| discriminate].
    injection H as <-. apply quoted_body_sound in E5 as [rest' E5].
    exists w1, w2, rest'. split_ands; auto; [| right; now exists b].
    rewrite E1, E2, E4, E5. unfold Regex.quoted. now norm_append.
  - injection H as <-. exists w1, w2, rest. split_ands; auto.
    rewrite E1, E2, E3. now norm_append.
Qed.

Lemma decimal_nonneg (s : string) (acc : Z) :
  (0 <= acc)%Z -> PS.all_chars Regex.is_digit s = true -> (0 <= decimal acc s)%Z.
Proof.
  revert acc. induction s as [| c s IH]; intros acc Hacc H; cbn [decimal]; [assumption |].
  cbn [PS.all_chars] in H. apply andb_prop in H as [Hc Hs].
  apply IH; [| assumption].
  unfold Regex.is_digit in Hc. apply andb_prop in Hc as [Hlo _].
  apply Nat.leb_le in Hlo. lia.
Qed.

Lemma string_length_append (a b : string) :
  String.length (a +:+ b) = (String.length a + String.length b)%nat.
Proof.
  induction a as [| c a IH]; [reflexivity |].
  rewrite append_cons. simpl. now rewrite IH.
Qed.

Lemma substring_prefix (a b : string) : substring 0 (String.length a) (a +:+ b) = a.
Proof.
  induction a as [| c a IH].
  - destruct b; reflexivity.
  - rewrite append_cons. simpl. now rewrite IH.
Qed.

Lemma unquote_quoted (b : string) : unquote (Regex.quoted b) = b.
Proof.
  unfold unquote, Regex.quoted.
  rewrite string_length_append. simpl String.length.
  replace (String.length b + 1 - 1)%nat with (String.length b) by lia.
  apply substring_prefix.
Qed.

Lemma quoted_not_digits (b : string) : PS.all_chars Regex.is_digit (Regex.quoted b) = false.
Proof. reflexivity. Qed.

(** X3. What Try-Parse-Field returns is read from the payload: an integer
    is the value of a run of digits that follows the quoted field name and
    a colon, and it fits a 32-bit integer; a string is the text between the
    quotes of a quoted value in that place, as it stands. *)
Theorem Try_Parse_Field_from_payload (json fieldName : string) (v : PS.Value) :
  Try_Parse_Field json fieldName = Return v ->
  match v with
  | PS.Null => True
  | PS.Int n =>
      exists before w1 w2 digits after,
        json = before +:+ Regex.quoted fieldName +:+ w1 +:+ ":" +:+ w2 +:+ digits +:+ after /\
        PS.all_chars PS.IsWhiteSpace w1 = true /\
        PS.all_chars PS.IsWhiteSpace w2 = true /\
        digits <> EmptyString /\
        PS.all_chars Regex.is_digit digits = true /\
        n = decimal 0 digits /\
        (0 <= n <= 2147483647)%Z
  | PS.Str text =>
      exists before w1 w2 after,
        json = before +:+ Regex.quoted fieldName +:+ w1 +:+ ":" +:+ w2 +:+
               Regex.quoted text +:+ after /\
        PS.all_chars PS.IsWhiteSpace w1 = true /\
        PS.all_chars PS.IsWhiteSpace w2 = true
  end.
Proof.
  unfold Try_Parse_Field. destruct (PS.IsNullOrWhiteSpace json); [now intros [= <-] |].
  destruct (Regex.Match (Regex.field_at fieldName) json) as [val |] eqn:Em;
    [| now intros [= <-]].
  apply Match_sound in Em as (before & s' & Hjson & Hf).
  apply field_at_sound in Hf as (w1 & w2 & rest & Hs' & Hw1 & Hw2 & Hval).
  destruct Hval as [[Hne Hdigits] | [b ->]].
  - rewrite Hdigits. unfold to_int, bind.
    destruct (Z.leb_spec (decimal 0 val) 2147483647); [| discriminate].
    intros [= <-]. exists before, w1, w2, val, rest. split_ands; auto.
    + now rewrite Hjson, Hs'.
    + apply decimal_nonneg; [lia | assumption].
  - rewrite quoted_not_digits, unquote_quoted. intros [= <-].
    exists before, w1, w2, rest. split_ands; auto. now rewrite Hjson, Hs'.
Qed.

Lemma Try_Parse_Field_from_payload_witness :
  exists before w1 w2 digits after,
    ("{" +:+ Regex.quoted "diskSizeGB" +:+ ": 128}")
    = before +:+ Regex.quoted "diskSizeGB" +:+ w1 +:+ ":" +:+ w2 +:+ digits +:+ after /\
    PS.all_chars PS.IsWhiteSpace w1 = true /\
    PS.all_chars PS.IsWhiteSpace w2 = true /\
    digits <> EmptyString /\
    PS.all_chars Regex.is_digit digits = true /\
    128%Z = decimal 0 digits /\
    (0 <= 128 <= 2147483647)%Z.
Proof.
  apply (Try_Parse_Field_from_payload
           ("{" +:+ Regex.quoted "diskSizeGB" +:+ ": 128}") "diskSizeGB" (PS.Int 128)).
  reflexivity.
Defined.

(** X4. A payload in which the quoted field name does not occur gives
    null: no error, no value. *)
Theorem Try_Parse_Field_absent (json fieldName : string) :
  (forall before after, json <> before +:+ Regex.quoted fieldName +:+ after) ->
  Try_Parse_Field json fieldName = Return PS.Null.
Proof.
  intros Habsent. unfold Try_Parse_Field.
  destruct (PS.IsNullOrWhiteSpace json); [reflexivity |].
  destruct (Regex.Match (Regex.field_at fieldName) json) as [val |] eqn:Em; [| reflexivity].
  exfalso. apply Match_sound in Em as (before & s' & Hjson & Hf).
  apply field_at_sound in Hf as (w1 & w2 & rest & Hs' & _).
  apply (Habsent before (w1 +:+ ":" +:+ w2 +:+ val +:+ rest)).
  now rewrite Hjson, Hs'.
Qed.

Lemma Try_Parse_Field_absent_witness :
  Try_Parse_Field "{}" "diskSizeGB" = Return PS.Null.
Proof.
  apply (Try_Parse_Field_absent "{}" "diskSizeGB").
  intros before after H. apply (f_equal String.length) in H.
  rewrite !string_length_append in H. simpl in H. lia.
Defined.

Lemma disk_loop_all_built (ops : list Op.t) (rs acc : list DiskChange.t) :
  Forall2 (fun op r => disk_record op = Return r) ops rs ->
  disk_loop ops acc = acc ++ rs.
Proof.
  intros H. revert acc. induction H as [| op r ops rs Hop _ IH]; intros acc; cbn [disk_loop].
  - now rewrite app_nil_r.
  - rewrite Hop, IH, <- app_assoc. reflexivity.
Qed.

Lemma disk_loop_until_error (ops1 ops2 : list Op.t) (op : Op.t)
  (rs acc : list DiskChange.t) :
  Forall2 (fun op r => disk_record op = Return r) ops1 rs ->
  disk_record op = Throw ->
  disk_loop (ops1 ++ op :: ops2) acc = acc ++ rs.
Proof.
  intros H Hop. revert acc.
  induction H as [| op1 r ops1 rs Hop1 _ IH]; intros acc; cbn [disk_loop app].
  - now rewrite Hop, app_nil_r.
  - rewrite Hop1, IH, <- app_assoc. reflexivity.
Qed.

Lemma disk_record_size_error (op : Op.t) :
  Try_Parse_Field (PS.str (Get_ActivityJson op)) "diskSizeGB" = Throw ->
  disk_record op = Throw.
Proof. intros H. unfold disk_record. now rewrite H. Qed.

(** X5. The loop over the disk entries of a subscription adds one record
    per entry, in order, as long as the records build. An entry whose
    payload names a disk size that does not fit a 32-bit integer ends the
    loop: the records of the entries before it stay, and no entry after it
    gives a record. *)
Theorem disk_loop_stops_at_oversized_entry (ops1 ops2 : list Op.t) (op : Op.t)
  (rs acc : list DiskChange.t) :
  Forall2 (fun op r => disk_record op = Return r) ops1 rs ->
  Try_Parse_Field (PS.str (Get_ActivityJson op)) "diskSizeGB" = Throw ->
  disk_loop ops1 acc = acc ++ rs /\
  disk_loop (ops1 ++ op :: ops2) acc = acc ++ rs.
Proof.
  intros H Hop. split.
  - now apply disk_loop_all_built.
  - apply disk_loop_until_error; [assumption | now apply disk_record_size_error].
Qed.

Lemma disk_loop_stops_at_oversized_entry_witness :
  disk_loop [create_op] [] = [] ++ [created_Disk1] /\
  disk_loop ([create_op] ++ oversized_op :: [create_op]) [] = [] ++ [created_Disk1].
Proof.
  apply (disk_loop_stops_at_oversized_entry [create_op] [create_op] oversized_op
           [created_Disk1] []).
  - repeat constructor.
  - reflexivity.
Defined.

(** ** Properties of the classification of an operation *)

Lemma substring_skip (a x : string) (m : nat) :
  substring (String.length a) m (a +:+ x) = substring 0 m x.
Proof.
  induction a as [| c a IH]; [reflexivity |].
  rewrite append_cons. simpl. exact IH.
Qed.

Lemma substring_skip_more (a x : string) (n m : nat) :
  substring (String.length a + n) m (a +:+ x) = substring n m x.
Proof.
  induction a as [| c a IH]; [reflexivity |].
  rewrite append_cons. simpl. exact IH.
Qed.

Lemma has_suffix_append (y a x : string) :
  (String.length y <= String.length x)%nat ->
  has_suffix y (a +:+ x) = has_suffix y x.
Proof.
  intros Hlen. unfold has_suffix. rewrite string_length_append.
  replace (String.length a + String.length x - String.length y)%nat
    with (String.length a + (String.length x - String.length y))%nat by lia.
  rewrite substring_skip_more.
  destruct (Nat.leb_spec (String.length y) (String.length x)); [| lia].
  destruct (Nat.leb_spec (String.length y) (String.length a + String.length x)); [| lia].
  reflexivity.
Qed.

Lemma substring_all (s : string) : substring 0 (String.length s) s = s.
Proof. induction s as [| c s IH]; [reflexivity |]. simpl. now f_equal. Qed.

Lemma substring_none (s : string) : substring 0 0 s = EmptyString.
Proof. destruct s; reflexivity. Qed.

Lemma substring_split (s : string) (n : nat) :
  (n <= String.length s)%nat ->
  s = substring 0 n s +:+ substring n (String.length s - n) s.
Proof.
  revert n. induction s as [| c s IH]; intros n Hn.
  - destruct n; reflexivity.
  - destruct n as [| n].
    + rewrite substring_none, append_empty, Nat.sub_0_r. now rewrite substring_all.
    + simpl in Hn.
      change (substring 0 (S n) (String c s)) with (String c (substring 0 n s)).
      change (substring (S n) (String.length (String c s) - S n) (String c s))
        with (substring n (String.length s - n) s).
      rewrite append_cons. f_equal. apply IH. lia.
Qed.

Lemma has_suffix_sound (y s : string) :
  has_suffix y s = true -> exists a, s = a +:+ y.
Proof.
  unfold has_suffix. intros H. apply andb_prop in H as [Hlen Heq].
  apply Nat.leb_le in Hlen. apply String.eqb_eq in Heq.
  exists (substring 0 (String.length s - String.length y) s).
  pose proof (substring_split s (String.length s - String.length y)) as Hsplit.
  replace (String.length s - (String.length s - String.length y))%nat
    with (String.length y) in Hsplit by lia.
  rewrite <- Heq in Hsplit. apply Hsplit. lia.
Qed.

(** Of two suffixes of a text, the shorter is a suffix of the longer. *)
Lemma suffix_of_suffix (x y s : string) :
  has_suffix x s = true -> has_suffix y s = true ->
  (String.length x <= String.length y)%nat ->
  has_suffix x y = true.
Proof.
  intros Hx Hy Hlen. apply has_suffix_sound in Hy as [a ->].
  now rewrite has_suffix_append in Hx.
Qed.

Lemma match_end_exclusive (p q s : string) :
  let lf := String "010" EmptyString in
  has_suffix p q = false -> has_suffix q p = false ->
  has_suffix p (q +:+ lf) = false -> has_suffix q (p +:+ lf) = false ->
  has_suffix (p +:+ lf) q = false -> has_suffix (q +:+ lf) p = false ->
  has_suffix (p +:+ lf) (q +:+ lf) = false -> has_suffix (q +:+ lf) (p +:+ lf) = false ->
  match_end p s = true -> match_end q s = false.
Proof.
  intros lf H1 H2 H3 H4 H5 H6 H7 H8. unfold match_end. fold lf.
  intros Hp. apply orb_false_iff.
  assert (Hcmp : forall x y, has_suffix x (PS.ToLower s) = true ->
                             has_suffix y (PS.ToLower s) = true ->
                             has_suffix x y = false -> has_suffix y x = false -> False).
  { intros x y Hx Hy Hxy Hyx.
    destruct (Nat.le_ge_cases (String.length x) (String.length y)) as [Hle | Hle].
    - rewrite (suffix_of_suffix x y _ Hx Hy Hle) in Hxy. discriminate.
    - rewrite (suffix_of_suffix y x _ Hy Hx Hle) in Hyx. discriminate. }
  apply orb_true_iff in Hp as [Hp | Hp]; split;
    match goal with
    | |- ?g = false => destruct g eqn:E; [exfalso | reflexivity]
    end; eauto.
Qed.

(** X6. The change type follows the end of the operation name alone,
    whatever the order of the tests: Deleted exactly for a name that ends
    in /delete, Created exactly for a name that ends in /create, letter
    case ignored, and Updated for every other name. *)
Theorem classify_by_suffix (opNameVal : string) :
  (classify opNameVal = DiskChange.Deleted <-> match_end "/delete" opNameVal = true) /\
  (classify opNameVal = DiskChange.Created <-> match_end "/create" opNameVal = true) /\
  (classify opNameVal = DiskChange.Updated <->
   match_end "/delete" opNameVal = false /\ match_end "/create" opNameVal = false).
Proof.
  assert (Hcd : match_end "/create" opNameVal = true -> match_end "/delete" opNameVal = false)
    by (apply match_end_exclusive; reflexivity).
  assert (Hcw : match_end "/create" opNameVal = true -> match_end "/write" opNameVal = false)
    by (apply match_end_exclusive; reflexivity).
  unfold classify.
  destruct (match_end "/delete" opNameVal) eqn:Ed.
  - split_ands; split; try congruence; try (intros []; congruence).
    intros Hc. specialize (Hcd Hc). congruence.
  - destruct (match_end "/write" opNameVal) eqn:Ew.
    + split_ands; split; try congruence; try (intros []; congruence).
      * intros Hc. specialize (Hcw Hc). congruence.
      * intros _. split; [reflexivity |].
        destruct (match_end "/create" opNameVal) eqn:Ec; [| reflexivity].
        specialize (Hcw eq_refl). congruence.
    + destruct (match_end "/create" opNameVal) eqn:Ec;
        split_ands; split; try congruence; try (intros []; congruence); auto.
Qed.

(** ** Further properties of Invoke-ArgQuery *)

Lemma more_pages_until_last {Row : Type} (search : Graph.Service Row)
  (rest done : list (Graph.Response Row)) (last : Graph.Response Row)
  (fuel : nat) (token : string) (all : list Row) :
  (forall n r, (done ++ rest ++ [last]) !! n = Some r ->
     search n (sent_token (done ++ rest ++ [last]) n) = Graph.Answers (Some r)) ->
  (forall r, r ∈ done ++ rest -> Graph.next_token (Some r) <> None) ->
  Graph.next_token (Some last) = None ->
  sent_token (done ++ rest ++ [last]) (length done) = Some token ->
  (length rest < fuel)%nat ->
  Graph.more_pages fuel search (length done) token all
  = Some (Graph.mkOutcome (all ++ concat (map Graph.Data (rest ++ [last]))) false).
Proof.
  revert done fuel token all.
  induction rest as [| r rest IH]; intros done fuel token all Hok Hmore Hlast Htok Hfuel;
    (destruct fuel as [| fuel]; [simpl in Hfuel; lia |]); cbn [Graph.more_pages].
  - assert (Hr : (done ++ [] ++ [last]) !! length done = Some last)
      by (rewrite lookup_app_r, Nat.sub_diag by lia; reflexivity).
    rewrite <- Htok, (Hok _ _ Hr), Hlast, collect_Some.
    cbn [app map concat]. now rewrite app_nil_r.
  - assert (Hr : (done ++ (r :: rest) ++ [last]) !! length done = Some r)
      by (rewrite lookup_app_r, Nat.sub_diag by lia; reflexivity).
    rewrite <- Htok, (Hok _ _ Hr).
    destruct (Graph.next_token (Some r)) as [token' |] eqn:Etok.
    2: { exfalso. apply (Hmore r); [| assumption].
         apply elem_of_app. right. now left. }
    rewrite collect_Some.
    replace (S (length done)) with (length (done ++ [r]))
      by (rewrite length_app; simpl; lia).
    assert (Eshape : (done ++ [r]) ++ rest ++ [last] = done ++ (r :: rest) ++ [last])
      by now rewrite <- app_assoc.
    rewrite (IH (done ++ [r]) fuel token' (all ++ Graph.Data r)).
    + cbn [app map concat]. now rewrite app_assoc.
    + now rewrite Eshape.
    + intros r' Hr'. apply Hmore. rewrite <- app_assoc in Hr'. exact Hr'.
    + assumption.
    + rewrite Eshape, length_app. cbn [length]. rewrite Nat.add_1_r.
      cbn [sent_token]. rewrite Hr. now apply next_token_SkipToken.
    + simpl in Hfuel. lia.
Qed.

(** X7. When every request is answered, each page but the last with a skip
    token and the last without one, the client returns the rows of all the
    pages in the order received, and writes no warning. *)
Theorem Invoke_ArgQuery_collects_all_pages {Row : Type}
  (search : Graph.Service Row) (pages : list (Graph.Response Row))
  (last : Graph.Response Row) (fuel : nat) :
  (forall n r, (pages ++ [last]) !! n = Some r ->
     search n (sent_token (pages ++ [last]) n) = Graph.Answers (Some r)) ->
  (forall r, r ∈ pages -> Graph.next_token (Some r) <> None) ->
  Graph.next_token (Some last) = None ->
  (length pages <= fuel)%nat ->
  Graph.Invoke_ArgQuery fuel search
  = Some (Graph.mkOutcome (concat (map Graph.Data (pages ++ [last]))) false).
Proof.
  intros Hok Hmore Hlast Hfuel. unfold Graph.Invoke_ArgQuery.
  destruct pages as [| r rest].
  - pose proof (Hok 0%nat last eq_refl) as Hsearch. simpl in Hsearch.
    rewrite Hsearch, Hlast, collect_Some. cbn [app map concat].
    now rewrite app_nil_r.
  - pose proof (Hok 0%nat r eq_refl) as Hsearch. simpl in Hsearch. rewrite Hsearch.
    destruct (Graph.next_token (Some r)) as [token |] eqn:Etok.
    2: { exfalso. apply (Hmore r); [now left | assumption]. }
    rewrite collect_Some.
    apply (more_pages_until_last search rest [r] last fuel token); try assumption.
    simpl. now apply next_token_SkipToken.
Qed.

Lemma Invoke_ArgQuery_collects_all_pages_witness :
  Graph.Invoke_ArgQuery 1 two_pages
  = Some (Graph.mkOutcome ["disk-a"; "disk-b"; "disk-c"] false).
Proof.
  apply (Invoke_ArgQuery_collects_all_pages two_pages
           [Graph.mkResponse ["disk-a"; "disk-b"] (Some "page2")]
           (Graph.mkResponse ["disk-c"] None) 1).
  - intros [| [| n]] r H; simpl in H; try discriminate; now injection H as <-.
  - intros r Hr. apply list_elem_of_singleton in Hr as ->. discriminate.
  - reflexivity.
  - simpl. lia.
Defined.

Lemma more_pages_endless {Row : Type} (search : Graph.Service Row)
  (fuel n : nat) (token : string) (all : list Row) :
  (forall n token, exists r, search n token = Graph.Answers (Some r) /\
                             Graph.next_token (Some r) <> None) ->
  Graph.more_pages fuel search n token all = None.
Proof.
  intros Hall. revert n token all.
  induction fuel as [| fuel IH]; intros n token all; cbn [Graph.more_pages]; [reflexivity |].
  destruct (Hall n (Some token)) as (r & -> & Hnext).
  destruct (Graph.next_token (Some r)); [apply IH | congruence].
Qed.

(** X8. The client stops asking only when a response comes without a skip
    token or a request raises: against a service that sends a skip token
    with every page, no number of requests lets the call return. *)
Theorem Invoke_ArgQuery_endless_service {Row : Type} (search : Graph.Service Row)
  (fuel : nat) :
  (forall n token, exists r, search n token = Graph.Answers (Some r) /\
                             Graph.next_token (Some r) <> None) ->
  Graph.Invoke_ArgQuery fuel search = None.
Proof.
  intros Hall. unfold Graph.Invoke_ArgQuery.
  destruct (Hall 0%nat None) as (r & -> & Hnext).
  destruct (Graph.next_token (Some r)); [now apply more_pages_endless | congruence].
Qed.

Lemma Invoke_ArgQuery_endless_service_witness :
  Graph.Invoke_ArgQuery 1000 endless_pages = None.
Proof.
  apply (Invoke_ArgQuery_endless_service endless_pages 1000).
  intros n token. eexists. split; [reflexivity | discriminate].
Defined.

(** ** Properties of Sort-Object and further properties of the attachment diff *)

Lemma insert_by_sorted {A : Type} (key : A -> Z) (x : A) (l : list A) :
  sorted_by key l -> sorted_by key (insert_by key x l).
Proof.
  induction l as [| y l IH]; intros Hl; cbn [insert_by].
  - cbn. split; [constructor | exact I].
  - destruct Hl as [Hy Hl].
    destruct (Z.leb_spec (key x) (key y)) as [Hxy | Hxy].
    + cbn [sorted_by]. split_ands; auto.
      constructor; [assumption |].
      eapply Forall_impl; [exact Hy |]. cbn. intros z Hz. lia.
    + cbn [sorted_by]. split; [| now apply IH].
      rewrite insert_by_Permutation. constructor; [lia | assumption].
Qed.

Lemma Sort_Object_sorted {A : Type} (key : A -> Z) (l : list A) :
  sorted_by key (Sort_Object key l).
Proof.
  induction l as [| x l IH]; cbn [Sort_Object]; [exact I |].
  now apply insert_by_sorted.
Qed.

Lemma sorted_by_neighbours {A : Type} (key : A -> Z) (pre post : list A) (x y : A) :
  sorted_by key (pre ++ x :: y :: post) -> (key x <= key y)%Z.
Proof.
  induction pre as [| a pre IH]; cbn [app sorted_by].
  - intros [H _]. now apply Forall_cons in H as [H _].
  - intros [_ H]. now apply IH.
Qed.

(** X9. Both exported tables are in non-decreasing order of the event
    time. *)
Theorem exported_tables_sorted (empty_is_true : bool) (i : Input)
  (changes : list DiskChange.t) (attaches : list AttachChange.t) :
  run empty_is_true i = Some (changes, attaches) ->
  sorted_by DiskChange.EventTime changes /\
  sorted_by AttachChange.EventTime attaches.
Proof.
  unfold run. destruct (subsObj i); [discriminate |].
  unfold script. intros [= <- <-]. split; apply Sort_Object_sorted.
Qed.

Lemma exported_tables_sorted_witness :
  sorted_by DiskChange.EventTime [created_Disk1] /\
  sorted_by AttachChange.EventTime [].
Proof.
  apply (exported_tables_sorted false logged_and_listed [created_Disk1] []).
  reflexivity.
Defined.

Lemma diff_pair_elem (prev curr : VmEvent.t) (r : AttachChange.t) :
  r ∈ diff_pair prev curr <->
  (exists id, id ∈ VmEvent.DiskIds curr /\ (id ∉ VmEvent.DiskIds prev) /\
              r = attach_record AttachChange.Attached curr curr id) \/
  (exists id, id ∈ VmEvent.DiskIds prev /\ (id ∉ VmEvent.DiskIds curr) /\
              r = attach_record AttachChange.Detached prev curr id).
Proof.
  unfold diff_pair. rewrite elem_of_app, !map_elem.
  split; (intros [(id & H1 & H2) | (id & H1 & H2)]; [left | right]; exists id).
  - apply filter_elem in H2 as [Hin Hout].
    apply negb_true_iff, Contains_false in Hout.
    rewrite of_list_elem in Hin, Hout. auto.
  - apply filter_elem in H2 as [Hin Hout].
    apply negb_true_iff, Contains_false in Hout.
    rewrite of_list_elem in Hin, Hout. auto.
  - destruct H2 as [Hout ->]. split; [reflexivity |].
    apply filter_elem. split; [now apply of_list_elem |].
    apply negb_true_iff, Contains_false. now rewrite of_list_elem.
  - destruct H2 as [Hout ->]. split; [reflexivity |].
    apply filter_elem. split; [now apply of_list_elem |].
    apply negb_true_iff, Contains_false. now rewrite of_list_elem.
Qed.

Lemma diff_seq_elem (seq : list VmEvent.t) (r : AttachChange.t) :
  r ∈ diff_seq seq ->
  exists pre prev curr post, seq = pre ++ prev :: curr :: post /\ r ∈ diff_pair prev curr.
Proof.
  induction seq as [| a seq IH]; cbn [diff_seq]; [intros H; now apply elem_of_nil in H |].
  destruct seq as [| b seq]; [intros H; now apply elem_of_nil in H |].
  intros H. apply elem_of_app in H as [H | H].
  - now exists [], a, b, seq.
  - destruct (IH H) as (pre & prev & curr & post & -> & Hr).
    now exists (a :: pre), prev, curr, post.
Qed.

(** X10. For two neighbours [prev], [curr] of the sorted sequence of a VM
    and a disk id held by [curr] and not by [prev], the engine emits for
    this pair exactly one Attached record for the id, with the VM name,
    subscription, resource group, time and correlation id of [curr]. *)
Theorem attached_record_per_pair (events pre post : list VmEvent.t)
  (prev curr : VmEvent.t) (id : string) :
  Sort_Object VmEvent.Time events = pre ++ prev :: curr :: post ->
  id ∈ VmEvent.DiskIds curr ->
  id ∉ VmEvent.DiskIds prev ->
  let attached :=
    {| AttachChange.ChangeType     := AttachChange.Attached;
       AttachChange.VmName         := VmEvent.Vm curr;
       AttachChange.SubscriptionId := VmEvent.SubId curr;
       AttachChange.ResourceGroup  := VmEvent.Rg curr;
       AttachChange.DiskId         := id;
       AttachChange.EventTime      := VmEvent.Time curr;
       AttachChange.Source         := "ActivityLog(VM write)";
       AttachChange.CorrelationId  := VmEvent.CorrId curr |} in
  (exists before after,
      diff_pair prev curr = before ++ attached :: after /\
      forall r, r ∈ (before ++ after) ->
                ~ (AttachChange.ChangeType r = AttachChange.Attached /\
                   AttachChange.DiskId r = id)) /\
  attached ∈ diff_vm events.
Proof.
  intros Hsorted Hcurr Hprev attached.
  assert (Hpair : exists before after,
      diff_pair prev curr = before ++ attached :: after /\
      forall r, r ∈ (before ++ after) ->
                ~ (AttachChange.ChangeType r = AttachChange.Attached /\
                   AttachChange.DiskId r = id)).
  { unfold diff_pair.
    set (prevIds := HashSet.of_list (VmEvent.DiskIds prev)).
    set (currIds := HashSet.of_list (VmEvent.DiskIds curr)).
    destruct (NoDup_split currIds id) as (l1 & l2 & Hsplit & Hl1 & Hl2).
    { apply of_list_NoDup. }
    { now apply of_list_elem. }
    assert (Hnew : negb (HashSet.Contains prevIds id) = true).
    { apply negb_true_iff, Contains_false. unfold prevIds. now rewrite of_list_elem. }
    rewrite Hsplit, List.filter_app. cbn [List.filter]. rewrite Hnew.
    rewrite map_app. cbn [map].
    eexists _, (_ ++ _). split.
    - rewrite <- app_assoc. reflexivity.
    - intros r Hr [Hkind Hid].
      repeat (apply elem_of_app in Hr as [Hr | Hr]);
        apply map_elem in Hr as (x & -> & Hx);
        apply filter_elem in Hx as [Hx _]; cbn in Hkind, Hid; subst x;
        try discriminate; contradiction. }
  split; [exact Hpair |].
  destruct Hpair as (before & after & Heq & _).
  unfold diff_vm. rewrite Hsorted. apply diff_seq_contains_pair.
  rewrite Heq. apply elem_of_app. right. now left.
Qed.

Lemma attached_record_per_pair_witness :
  AttachChange.mk AttachChange.Attached (Some "vm1") (Some "sub-1") (Some "rg-1")
    "C" 2 "ActivityLog(VM write)" (Some "c-2")
  ∈ diff_vm [snapshot_t2; snapshot_t1].
Proof.
  apply (attached_record_per_pair [snapshot_t2; snapshot_t1] [] [] snapshot_t1 snapshot_t2 "C").
  - reflexivity.
  - simpl. right. left.
  - simpl. intros H. apply elem_of_cons in H as [H | H]; [discriminate |].
    apply list_elem_of_singleton in H. discriminate.
Defined.

(** X11. The engine emits nothing else: every record of a VM is, for two
    neighbours of its sorted sequence, the Attached record of a disk that
    the later snapshot holds and the earlier does not, or the Detached
    record of a disk that the earlier holds and the later does not. A disk
    held by both, or by neither, gives no record. *)
Theorem attach_records_come_from_changes (events : list VmEvent.t) (r : AttachChange.t) :
  r ∈ diff_vm events ->
  exists pre prev curr post,
    Sort_Object VmEvent.Time events = pre ++ prev :: curr :: post /\
    ((AttachChange.DiskId r ∈ VmEvent.DiskIds curr /\
      (AttachChange.DiskId r ∉ VmEvent.DiskIds prev) /\
      r = attach_record AttachChange.Attached curr curr (AttachChange.DiskId r)) \/
     (AttachChange.DiskId r ∈ VmEvent.DiskIds prev /\
      (AttachChange.DiskId r ∉ VmEvent.DiskIds curr) /\
      r = attach_record AttachChange.Detached prev curr (AttachChange.DiskId r))).
Proof.
  unfold diff_vm. intros Hr.
  apply diff_seq_elem in Hr as (pre & prev & curr & post & Hseq & Hr).
  exists pre, prev, curr, post. split; [assumption |].
  apply diff_pair_elem in Hr as [(id & H1 & H2 & ->) | (id & H1 & H2 & ->)]; cbn; auto.
Qed.

Lemma attach_records_come_from_changes_witness :
  exists pre prev curr post,
    Sort_Object VmEvent.Time [snapshot_t2; snapshot_t1] = pre ++ prev :: curr :: post /\
    (("C" ∈ VmEvent.DiskIds curr /\ ("C" ∉ VmEvent.DiskIds prev) /\
      attach_record AttachChange.Attached snapshot_t2 snapshot_t2 "C"
      = attach_record AttachChange.Attached curr curr "C") \/
     ("C" ∈ VmEvent.DiskIds prev /\ ("C" ∉ VmEvent.DiskIds curr) /\
      attach_record AttachChange.Attached snapshot_t2 snapshot_t2 "C"
      = attach_record AttachChange.Detached prev curr "C")).
Proof.
  apply (attach_records_come_from_changes [snapshot_t2; snapshot_t1]
           (attach_record AttachChange.Attached snapshot_t2 snapshot_t2 "C")).
  vm_compute. left.
Defined.

Lemma sorted_pair_in_events (events pre post : list VmEvent.t) (prev curr : VmEvent.t) :
  Sort_Object VmEvent.Time events = pre ++ prev :: curr :: post ->
  prev ∈ events /\ curr ∈ events /\ (VmEvent.Time prev <= VmEvent.Time curr)%Z.
Proof.
  intros Hs.
  assert (Hperm : events ≡ₚ pre ++ prev :: curr :: post)
    by (rewrite <- Hs; symmetry; apply Sort_Object_Permutation).
  split_ands.
  - rewrite Hperm. apply elem_of_app. right. now left.
  - rewrite Hperm. apply elem_of_app. right. right. now left.
  - apply (sorted_by_neighbours VmEvent.Time pre post). rewrite <- Hs.
    apply Sort_Object_sorted.
Qed.

(** X12. A VM that only gains disks over time, each snapshot holding the
    disks of every snapshot that is not later, yields Attached records
    only. *)
Theorem growing_vm_only_attaches (events : list VmEvent.t) (r : AttachChange.t) :
  (forall e e', e ∈ events -> e' ∈ events ->
                (VmEvent.Time e <= VmEvent.Time e')%Z ->
                forall id, id ∈ VmEvent.DiskIds e -> id ∈ VmEvent.DiskIds e') ->
  r ∈ diff_vm events ->
  AttachChange.ChangeType r = AttachChange.Attached.
Proof.
  intros Hgrow Hr. unfold diff_vm in Hr.
  apply diff_seq_elem in Hr as (pre & prev & curr & post & Hseq & Hr).
  apply sorted_pair_in_events in Hseq as (Hprev & Hcurr & Htime).
  apply diff_pair_elem in Hr as [(id & _ & _ & ->) | (id & Hin & Hout & _)];
    [reflexivity |].
  exfalso. apply Hout. now apply (Hgrow prev curr).
Qed.

Lemma growing_vm_only_attaches_witness :
  AttachChange.ChangeType
    (attach_record AttachChange.Attached growing_t2 growing_t2 "DATA1")
  = AttachChange.Attached.
Proof.
  apply (growing_vm_only_attaches [growing_t1; growing_t2; growing_t3]).
  - intros e e' He He' Hle id Hid.
    rewrite !elem_of_cons, elem_of_nil in He, He'.
    destruct He as [-> | [-> | [-> | []]]], He' as [-> | [-> | [-> | []]]];
      cbn in Hle, Hid |- *; try lia;
      rewrite ?elem_of_cons, ?elem_of_nil in *; intuition.
  - vm_compute. left.
Defined.

(** X13. VM writes that leave the disks as they are yield no record: when
    all the snapshots of a VM hold the same disks, its diff is empty. *)
Theorem unchanged_disks_no_records (events : list VmEvent.t) :
  (forall e e' id, e ∈ events -> e' ∈ events ->
                   id ∈ VmEvent.DiskIds e -> id ∈ VmEvent.DiskIds e') ->
  diff_vm events = [].
Proof.
  intros Hsame.
  destruct (diff_vm events) as [| r l] eqn:E; [reflexivity |]. exfalso.
  assert (Hr : r ∈ diff_vm events) by (rewrite E; now left).
  unfold diff_vm in Hr.
  apply diff_seq_elem in Hr as (pre & prev & curr & post & Hseq & Hr).
  apply sorted_pair_in_events in Hseq as (Hprev & Hcurr & _).
  apply diff_pair_elem in Hr as [(id & Hin & Hout & _) | (id & Hin & Hout & _)];
    apply Hout; eauto.
Qed.

Lemma unchanged_disks_no_records_witness :
  diff_vm [growing_t2; growing_t2] = [].
Proof.
  apply (unchanged_disks_no_records [growing_t2; growing_t2]).
  intros e e' id He He' Hid.
  repeat (apply elem_of_cons in He as [-> | He]); try (now apply elem_of_nil in He);
    repeat (apply elem_of_cons in He' as [-> | He']); try (now apply elem_of_nil in He');
    assumption.
Defined.

(** ** Properties of the hashtables: snapshots by VM and the inventory index *)







Lemma ieq_sym (a b : string) : PS.ieq a b = PS.ieq b a.
Proof. unfold PS.ieq. apply String.eqb_sym. Qed.

Lemma ieq_trans_eq (a b c : string) : PS.ieq a b = true -> PS.ieq a c = PS.ieq b c.
Proof. unfold PS.ieq. intros H. apply String.eqb_eq in H. now rewrite H. Qed.



(** ** Further properties of the enrichment *)






Lemma enrich_row_idem (b : bool) (meta : DiskMeta.t) (row : DiskChange.t) :
  enrich_row b meta (enrich_row b meta row) = enrich_row b meta row.
Proof.
  unfold enrich_row, not_Match.
  destruct row as [? ? ? ? ? ? ? ? ? ? ? ? ? ? [?|] [?|] [?|]], b; reflexivity.
Qed.

Lemma enrich_with_row_key (b : bool) (idx : gmap string DiskMeta.t)
  (key : option string) (row : DiskChange.t) :
  row_key (enrich_with b idx key row) = row_key row.
Proof.
  destruct (enrich_with_cases b idx key row) as [-> | (k & meta & _ & _ & ->)];
    [reflexivity |].
  destruct (enrich_row_same_event b meta row) as (_ & Hn & Hs & Hr & _).
  unfold row_key. now rewrite <- Hn, <- Hs, <- Hr.
Qed.

Lemma enrich_with_idem (b : bool) (idx : gmap string DiskMeta.t)
  (key : option string) (row : DiskChange.t) :
  enrich_with b idx key (enrich_with b idx key row) = enrich_with b idx key row.
Proof.
  unfold enrich_with. destruct key as [k |]; [| reflexivity].
  destruct (Hashtable.get idx k) as [meta |] eqn:E; [| reflexivity].
  apply enrich_row_idem.
Qed.

Lemma enrich_loop_idem (b : bool) (idx : gmap string DiskMeta.t)
  (rows : list DiskChange.t) (key : option string) :
  enrich_loop b idx key (enrich_loop b idx key rows) = enrich_loop b idx key rows.
Proof.
  revert key. induction rows as [| row rows IH]; intros key; [reflexivity |].
  cbn [enrich_loop].
  assert (Hkey : key_after key (enrich_with b idx (key_after key row) row)
                 = key_after key row)
    by (unfold key_after; now rewrite enrich_with_row_key).
  rewrite Hkey, enrich_with_idem, IH. reflexivity.
Qed.

Lemma enrich_loop_app (b : bool) (idx : gmap string DiskMeta.t)
  (l1 l2 : list DiskChange.t) (key : option string) :
  enrich_loop b idx key (l1 ++ l2)
  = enrich_loop b idx key l1 ++ enrich_loop b idx (fold_left key_after l1 key) l2.
Proof.
  revert key. induction l1 as [| row l1 IH]; intros key; [reflexivity |].
  cbn [app enrich_loop fold_left]. now rewrite IH.
Qed.

Lemma enrich_loop_length (b : bool) (idx : gmap string DiskMeta.t)
  (rows : list DiskChange.t) (key : option string) :
  length (enrich_loop b idx key rows) = length rows.
Proof.
  revert key. induction rows as [| row rows IH]; intros key; [reflexivity |].
  cbn [enrich_loop length]. now rewrite IH.
Qed.





(** X17. Running the enrichment block a second time changes nothing. *)
Theorem enrichment_idempotent (empty_is_true : bool) (diskMeta : list DiskMeta.t)
  (key : option string) (rows : list DiskChange.t) :
  enrich empty_is_true diskMeta key (enrich empty_is_true diskMeta key rows)
  = enrich empty_is_true diskMeta key rows.
Proof. unfold enrich. apply enrich_loop_idem. Qed.

(** X18. A record without a subscription, resource group or disk name has
    no key of its own: the assignment of line 552 fails and [$key] keeps
    the key of the record before it, so the record is enriched from the
    inventory row of its predecessor. *)
Theorem enrichment_reuses_previous_key (empty_is_true : bool)
  (diskMeta : list DiskMeta.t) (key : option string)
  (before after : list DiskChange.t) (r1 r2 : DiskChange.t) (k : string)
  (meta : DiskMeta.t) :
  row_key r1 = Some k ->
  row_key r2 = None ->
  Hashtable.get (snd (build_index diskMeta key)) k = Some meta ->
  enrich empty_is_true diskMeta key (before ++ r1 :: r2 :: after) !! S (length before)
  = Some (enrich_row empty_is_true meta r2).
Proof.
  intros Hk1 Hk2 Hget. unfold enrich.
  change (before ++ r1 :: r2 :: after) with (before ++ [r1] ++ r2 :: after).
  rewrite app_assoc, enrich_loop_app.
  rewrite lookup_app_r; rewrite enrich_loop_length, length_app; cbn [length]; [| lia].
  replace (S (length before) - (length before + 1))%nat with 0%nat by lia.
  rewrite fold_left_app. cbn [fold_left enrich_loop lookup].
  cbn. f_equal. unfold key_after at 1. rewrite Hk2.
  unfold key_after. rewrite Hk1. unfold enrich_with. now rewrite Hget.
Qed.

Lemma enrichment_reuses_previous_key_witness :
  enrich false [disk_meta "disk1"] None ([] ++ created_Disk1 :: nameless_record :: [])
    !! 1%nat
  = Some (enrich_row false (disk_meta "disk1") nameless_record).
Proof.
  apply (enrichment_reuses_previous_key false [disk_meta "disk1"] None [] []
           created_Disk1 nameless_record "sub-1|rg-1|disk1" (disk_meta "disk1"));
    reflexivity.
Defined.

(** ** Further properties of the integration and of the loop over the subscriptions *)

Lemma same_created_disk_arg_record_refl (d : NewDisk.t) :
  same_created_disk d (arg_record d) = true.
Proof. apply same_created_disk_true. cbn. split; [reflexivity |]. eauto 10. Qed.

Lemma integrate_step_extends (l : list DiskChange.t) (d : NewDisk.t) :
  exists added, integrate_step l d = l ++ added /\
                (forall r, r ∈ added -> r = arg_record d).
Proof.
  unfold integrate_step. destruct (exists_created l d).
  - exists [arg_record d]. split; [reflexivity |].
    intros r Hr. now apply list_elem_of_singleton in Hr.
  - exists []. split; [now rewrite app_nil_r |].
    intros r Hr. now apply elem_of_nil in Hr.
Qed.

Lemma integrate_step_covers (l : list DiskChange.t) (d : NewDisk.t) :
  exists r, r ∈ integrate_step l d /\ same_created_disk d r = true.
Proof.
  unfold integrate_step, exists_created.
  destruct (List.filter (same_created_disk d) l) as [| r rest] eqn:E.
  - exists (arg_record d). split; [| apply same_created_disk_arg_record_refl].
    apply elem_of_app. right. now left.
  - exists r. apply filter_elem. rewrite E. now left.
Qed.

Lemma integrate_extends (newDisksArg : list NewDisk.t) (l : list DiskChange.t) :
  exists added, integrate newDisksArg l = l ++ added /\
                (forall r, r ∈ added -> exists d, d ∈ newDisksArg /\ r = arg_record d).
Proof.
  unfold integrate. revert l. induction newDisksArg as [| d ds IH]; intros l.
  - exists []. split; [now rewrite app_nil_r |].
    intros r Hr. now apply elem_of_nil in Hr.
  - cbn [fold_left]. destruct (integrate_step_extends l d) as (a1 & -> & Ha1).
    destruct (IH (l ++ a1)) as (a2 & -> & Ha2).
    exists (a1 ++ a2). split; [now rewrite app_assoc |].
    intros r Hr. apply elem_of_app in Hr as [Hr | Hr].
    + exists d. split; [now left | now apply Ha1].
    + destruct (Ha2 r Hr) as (d' & Hd' & ->). exists d'. split; [now right | reflexivity].
Qed.

Lemma integrate_covers (newDisksArg : list NewDisk.t) (l : list DiskChange.t)
  (d : NewDisk.t) :
  d ∈ newDisksArg ->
  exists r, r ∈ integrate newDisksArg l /\ same_created_disk d r = true.
Proof.
  unfold integrate. revert l. induction newDisksArg as [| d0 ds IH]; intros l Hd.
  - now apply elem_of_nil in Hd.
  - cbn [fold_left]. apply elem_of_cons in Hd as [-> | Hd]; [| now apply IH].
    destruct (integrate_step_covers l d0) as (r & Hr & Hsame).
    exists r. split; [| assumption].
    destruct (integrate_extends ds (integrate_step l d0)) as (added & Heq & _).
    unfold integrate in Heq. rewrite Heq. apply elem_of_app. now left.
Qed.



(** X20. An inventory row whose subscription, resource group and name are
    those of an earlier row, up to letter case, adds nothing: the disk gets
    at most one record of source ARG. *)
Theorem integration_skips_repeated_row (newDisksArg : list NewDisk.t)
  (l : list DiskChange.t) (d d' : NewDisk.t) :
  d' ∈ newDisksArg ->
  PS.ToLower (NewDisk.subscriptionId d) = PS.ToLower (NewDisk.subscriptionId d') ->
  PS.ToLower (NewDisk.resourceGroup d) = PS.ToLower (NewDisk.resourceGroup d') ->
  PS.ToLower (NewDisk.name d) = PS.ToLower (NewDisk.name d') ->
  integrate (newDisksArg ++ [d]) l = integrate newDisksArg l.
Proof.
  intros Hd' Es Er En. unfold integrate. rewrite fold_left_app. cbn [fold_left].
  fold (integrate newDisksArg l).
  assert (Hcov : exists r, r ∈ integrate newDisksArg l /\ same_created_disk d' r = true)
    by now apply integrate_covers.
  destruct Hcov as (r & Hr & Hsame).
  unfold integrate_step, exists_created.
  destruct (List.filter (same_created_disk d) (integrate newDisksArg l)) eqn:E;
    [| reflexivity].
  exfalso.
  assert (Hin : r ∈ List.filter (same_created_disk d) (integrate newDisksArg l)).
  { apply filter_elem. split; [assumption |].
    apply same_created_disk_true in Hsame as [Hc (sub & rg & name & Hs & Hg & Hn & Hs' & Hg' & Hn')].
    apply same_created_disk_true. split; [assumption |].
    exists sub, rg, name. split_ands; congruence. }
  rewrite E in Hin. now apply elem_of_nil in Hin.
Qed.

Lemma integration_skips_repeated_row_witness :
  integrate ([new_disk_in RG_capital_A_diaeresis "disk2"]
             ++ [new_disk_in rg_small_a_diaeresis "DISK2"]) [created_Disk1]
  = integrate [new_disk_in RG_capital_A_diaeresis "disk2"] [created_Disk1].
Proof.
  apply (integration_skips_repeated_row
           [new_disk_in RG_capital_A_diaeresis "disk2"] [created_Disk1]
           (new_disk_in rg_small_a_diaeresis "DISK2")
           (new_disk_in RG_capital_A_diaeresis "disk2")); try reflexivity.
  now left.
Defined.

Lemma disk_loop_acc (ops : list Op.t) (acc : list DiskChange.t) :
  disk_loop ops acc = acc ++ disk_loop ops [].
Proof.
  revert acc. induction ops as [| op ops IH]; intros acc; cbn [disk_loop].
  - now rewrite app_nil_r.
  - destruct (disk_record op) as [r |]; [| now rewrite app_nil_r].
    rewrite IH, (IH ([] ++ [r])), <- app_assoc. reflexivity.
Qed.

Lemma subscription_step_records (StartDate : Z) (st : State) (sub : Subscription.t) :
  diskChanges (subscription_step StartDate st sub)
  = diskChanges st ++ records_of_subscription StartDate sub.
Proof.
  unfold subscription_step, records_of_subscription.
  destruct (negb (Subscription.ContextOk sub)); [now rewrite app_nil_r |].
  cbn [diskChanges].
  destruct (Subscription.DiskLog sub); [apply disk_loop_acc | now rewrite app_nil_r].
Qed.

Lemma subscriptions_records (StartDate : Z) (subs : list Subscription.t) (st : State) :
  diskChanges (fold_left (subscription_step StartDate) subs st)
  = diskChanges st ++ flat_map (records_of_subscription StartDate) subs.
Proof.
  revert st. induction subs as [| sub subs IH]; intros st; cbn [fold_left flat_map].
  - now rewrite app_nil_r.
  - now rewrite IH, subscription_step_records, <- app_assoc.
Qed.

Lemma activity_log_stage_records (i : Input) :
  diskChanges (activity_log_stage i)
  = flat_map (records_of_subscription (StartDate i)) (subsObj i).
Proof.
  unfold activity_log_stage, derive_step. cbn [diskChanges].
  now rewrite subscriptions_records.
Qed.

(** X21. Each subscription contributes its disk records independently of
    the others: the records read from the Activity Log are the records of
    the subscriptions one after the other; a subscription whose context
    cannot be set or whose log read raises contributes none and takes
    nothing from the rest. *)
Theorem subscriptions_contribute_independently (i : Input) :
  diskChanges (activity_log_stage i)
  = flat_map (records_of_subscription (StartDate i)) (subsObj i) /\
  (forall sub, Subscription.ContextOk sub = false \/ Subscription.DiskLog sub = None ->
               records_of_subscription (StartDate i) sub = []).
Proof.
  split; [apply activity_log_stage_records |].
  intros sub [H | H]; unfold records_of_subscription; rewrite H; [reflexivity |].
  now destruct (negb (Subscription.ContextOk sub)).
Qed.

Lemma subscriptions_contribute_independently_witness :
  records_of_subscription (StartDate logged_and_listed)
    (Subscription.mk false (Some [create_op]) None) = [].
Proof.
  apply (subscriptions_contribute_independently logged_and_listed).
  now left.
Defined.

Lemma disk_record_EventTime (op : Op.t) (r : DiskChange.t) :
  disk_record op = Return r -> DiskChange.EventTime r = Op.EventTimestamp op.
Proof.
  unfold disk_record, bind. intros H.
  repeat match type of H with
         | match ?e with Return _ => _ | Throw => _ end = _ =>
             destruct e; [| discriminate]
         end.
  now injection H as <-.
Qed.

Lemma records_of_subscription_elem (StartDate : Z) (sub : Subscription.t)
  (r : DiskChange.t) :
  r ∈ records_of_subscription StartDate sub ->
  exists log op, Subscription.DiskLog sub = Some log /\ op ∈ log /\
                 is_disk_event StartDate op = true /\ disk_record op = Return r.
Proof.
  unfold records_of_subscription.
  destruct (negb (Subscription.ContextOk sub)); [intros H; now apply elem_of_nil in H |].
  destruct (Subscription.DiskLog sub) as [log |]; [| intros H; now apply elem_of_nil in H].
  intros H. apply disk_loop_elem in H as [H | (op & Hop & Hrec)];
    [now apply elem_of_nil in H |].
  apply filter_elem in Hop as [Hop Hev]. now exists log, op.
Qed.

(** X22. Every record of source ActivityLog in the exported table stems
    from a log entry that passed the filter: its result is Success and its
    resource type Microsoft.Compute/disks, up to letter case, and its event
    time, which is the event time of the record, is not before the start
    date. *)
Theorem activity_records_pass_filter (empty_is_true : bool) (i : Input)
  (changes : list DiskChange.t) (attaches : list AttachChange.t) (r : DiskChange.t) :
  run empty_is_true i = Some (changes, attaches) ->
  r ∈ changes ->
  DiskChange.Source r = DiskChange.ActivityLog ->
  (StartDate i <= DiskChange.EventTime r)%Z /\
  exists sub log op,
    sub ∈ subsObj i /\ Subscription.DiskLog sub = Some log /\ op ∈ log /\
    Op.EventTimestamp op = DiskChange.EventTime r /\
    PS.eq_op (Op.ResultType op) "Success" = true /\
    PS.eq_op (Op.ResourceType op) "Microsoft.Compute/disks" = true.
Proof.
  intros Hrun Hr Hsrc.
  apply run_script in Hrun. rewrite Hrun in Hr. clear Hrun.
  apply script_elem in Hr as [Hr | (_ & d & _ & ->)]; [| discriminate].
  apply enrichment_stage_elem in Hr as (r0 & Hr0 & Hr).
  assert (Htime : DiskChange.EventTime r = DiskChange.EventTime r0).
  { destruct Hr as [-> | (_ & meta & _ & ->)]; [reflexivity |].
    now destruct (enrich_row_same_event empty_is_true meta r0)
      as (_ & _ & _ & _ & <- & _). }
  rewrite activity_log_stage_records in Hr0. apply list_elem_of_In, in_flat_map in Hr0 as (sub & Hsub & Hr0).
  apply list_elem_of_In in Hsub, Hr0.
  apply records_of_subscription_elem in Hr0 as (log & op & Hlog & Hop & Hev & Hrec).
  apply disk_record_EventTime in Hrec.
  unfold is_disk_event in Hev.
  apply andb_prop in Hev as [Hev Htype]. apply andb_prop in Hev as [Hres Hstart].
  apply Z.leb_le in Hstart.
  split; [lia |].
  exists sub, log, op. split_ands; auto. congruence.
Qed.

Lemma activity_records_pass_filter_witness :
  (StartDate logged_and_listed <= DiskChange.EventTime created_Disk1)%Z.
Proof.
  apply (activity_records_pass_filter false logged_and_listed [created_Disk1] []
           created_Disk1); try reflexivity.
  left.
Defined.

(** ** The calendar-year check and the date format of the controller *)

Ltac each_char c := destruct c as [[] [] [] [] [] [] [] []].

Lemma nonzero_is_digit (c : ascii) :
  JS.is_nonzero_digit c = true -> Regex.is_digit c = true.
Proof. each_char c; intros H; try discriminate H; reflexivity. Qed.

Lemma digit_not_dash (c : ascii) :
  Regex.is_digit c = true -> Ascii.eqb c "-" = false.
Proof. each_char c; intros H; try discriminate H; reflexivity. Qed.

Lemma space_not_dash (c : ascii) :
  JS.is_space c = true -> Ascii.eqb c "-" = false.
Proof. each_char c; intros H; try discriminate H; reflexivity. Qed.

Lemma digit_value_digit (c : ascii) :
  Regex.is_digit c = true ->
  JS.digit_value 10 c = Some (Z.of_nat (nat_of_ascii c) - 48)%Z.
Proof. each_char c; intros H; try discriminate H; reflexivity. Qed.

Lemma digit_value_space (c : ascii) :
  JS.is_space c = true -> JS.digit_value 10 c = None.
Proof. each_char c; intros H; try discriminate H; reflexivity. Qed.

Lemma digit_range (c : ascii) :
  Regex.is_digit c = true -> (0 <= Z.of_nat (nat_of_ascii c) - 48 <= 9)%Z.
Proof.
  unfold Regex.is_digit. intros H.
  apply andb_true_iff in H as [H1 H2].
  apply Nat.leb_le in H1, H2. lia.
Qed.

Lemma year_inv (y rest : string) :
  JS.year y = Some rest ->
  exists a b c d,
    y = String a (String b (String c (String d rest)))
    /\ JS.is_nonzero_digit a = true /\ Regex.is_digit b = true
    /\ Regex.is_digit c = true /\ Regex.is_digit d = true.
Proof.
  destruct y as [| a [| b [| c [| d r]]]]; try discriminate.
  unfold JS.year.
  destruct (JS.is_nonzero_digit a) eqn:Ha; [| discriminate].
  destruct (Regex.is_digit b) eqn:Hb; [| discriminate].
  destruct (Regex.is_digit c) eqn:Hc; [| discriminate].
  destruct (Regex.is_digit d) eqn:Hd; [| discriminate].
  simpl. intros [= ->]. now exists a, b, c, d.
Qed.

Lemma year_app (y post : string) : is_year y -> JS.year (y +:+ post) = Some post.
Proof.
  intros H. apply year_inv in H as (a & b & c & d & -> & Ha & Hb & Hc & Hd).
  rewrite !append_cons, append_empty. unfold JS.year.
  now rewrite Ha, Hb, Hc, Hd.
Qed.

Lemma year_no_dash (y : string) : is_year y -> JS.includes "-" y = false.
Proof.
  intros H. apply year_inv in H as (a & b & c & d & -> & Ha & Hb & Hc & Hd).
  apply nonzero_is_digit in Ha.
  simpl. now rewrite !digit_not_dash.
Qed.

Lemma space_inv (sp rest : string) :
  JS.space sp = Some rest ->
  exists c, sp = String c rest /\ JS.is_space c = true.
Proof.
  destruct sp as [| c r]; [discriminate |]. unfold JS.space.
  destruct (JS.is_space c) eqn:Hc; [| discriminate].
  intros [= ->]. now exists c.
Qed.

Lemma blank_no_dash (sp : string) : blank_or_none sp -> JS.includes "-" sp = false.
Proof.
  intros [-> | H]; [reflexivity |].
  apply space_inv in H as (c & -> & Hc).
  simpl. now rewrite space_not_dash.
Qed.

Lemma includes_append (c : ascii) (a b : string) :
  JS.includes c (a +:+ b) = JS.includes c a || JS.includes c b.
Proof.
  induction a as [| x a IH]; [reflexivity |].
  rewrite append_cons. simpl. rewrite IH. now rewrite orb_assoc.
Qed.

Lemma split_without (c : ascii) (s : string) :
  JS.includes c s = false -> PS.split c s = [s].
Proof.
  induction s as [| x s IH]; [reflexivity |].
  simpl. intros H. apply orb_false_iff in H as [Hx Hs].
  rewrite Hx, (IH Hs). reflexivity.
Qed.

Lemma split_once (c : ascii) (a b : string) :
  JS.includes c a = false -> JS.includes c b = false ->
  PS.split c (a +:+ String c b) = [a; b].
Proof.
  intros Ha Hb. induction a as [| x a IH].
  - rewrite append_empty. simpl. rewrite Ascii.eqb_refl.
    now rewrite (split_without _ _ Hb).
  - simpl in Ha. apply orb_false_iff in Ha as [Hx Ha].
    rewrite append_cons. simpl. rewrite Hx, (IH Ha). reflexivity.
Qed.

Lemma found_here (m : string -> bool) (s : string) :
  m s = true -> JS.found m s = true.
Proof. intros H. destruct s; simpl; now rewrite H. Qed.

Lemma found_append (m : string -> bool) (pre s : string) :
  JS.found m s = true -> JS.found m (pre +:+ s) = true.
Proof.
  intros H. induction pre as [| x pre IH]; [exact H |].
  rewrite append_cons. simpl. rewrite IH. apply orb_true_r.
Qed.

Lemma found_inv (m : string -> bool) (s : string) :
  JS.found m s = true -> exists pre rest, s = pre +:+ rest /\ m rest = true.
Proof.
  induction s as [| x s IH]; simpl; intros H.
  - exists EmptyString, EmptyString. split; [reflexivity |].
    now rewrite orb_false_r in H.
  - apply orb_true_iff in H as [H | H].
    + now exists EmptyString, (String x s).
    + destruct (IH H) as (pre & rest & -> & Hm).
      now exists (String x pre), rest.
Qed.

Lemma space_here (c : ascii) (s : string) :
  JS.is_space c = true -> JS.space (String c s) = Some s.
Proof. intros H. unfold JS.space. now rewrite H. Qed.

Lemma dash_here (s : string) : JS.dash (String "-" s) = Some s.
Proof. reflexivity. Qed.

Lemma range_at_range (y sp1 sp2 z post : string) :
  is_year y -> is_year z -> blank_or_none sp1 -> blank_or_none sp2 ->
  JS.range_at (y +:+ sp1 +:+ "-" +:+ sp2 +:+ z +:+ post) = true.
Proof.
  intros Hy Hz H1 H2. unfold JS.range_at, JS.matches, JS.seq.
  rewrite (year_app y _ Hy).
  destruct H1 as [-> | H1], H2 as [-> | H2].
  - norm_append. rewrite dash_here.
    rewrite (year_app z _ Hz). now rewrite orb_true_r.
  - apply space_inv in H2 as (c2 & -> & Hc2).
    norm_append. rewrite dash_here.
    rewrite (space_here _ _ Hc2), (year_app z _ Hz).
    now rewrite orb_true_r.
  - apply space_inv in H1 as (c1 & -> & Hc1).
    norm_append.
    rewrite (space_here _ _ Hc1), dash_here, (year_app z _ Hz).
    now rewrite orb_true_r.
  - apply space_inv in H1 as (c1 & -> & Hc1).
    apply space_inv in H2 as (c2 & -> & Hc2).
    norm_append.
    rewrite (space_here _ _ Hc1), dash_here, (space_here _ _ Hc2).
    now rewrite (year_app z _ Hz).
Qed.

Lemma round_double_small (n : Z) :
  (0 <= n < 2 ^ 53)%Z -> JS.round_double n = Some n.
Proof.
  intros [H0 H53]. unfold JS.round_double.
  assert (Z.log2 n < 53)%Z as Hlog.
  { destruct (Z.eq_dec n 0%Z) as [-> | Hn]; [reflexivity |].
    apply Z.log2_lt_pow2; lia. }
  destruct (Z.leb_spec (Z.log2 n + 1) 53); [reflexivity | lia].
Qed.

Lemma parseInt_space (c : ascii) (s : string) :
  JS.is_space c = true -> JS.parseInt (String c s) = JS.parseInt s.
Proof. intros H. unfold JS.parseInt. simpl. now rewrite H. Qed.

(** A year at the start of a text, followed by no further digit, is read
    as its value. *)
Lemma parseInt_year (y rest : string) :
  is_year y ->
  rest = EmptyString
  \/ (exists c r, rest = String c r /\ JS.digit_value 10 c = None) ->
  JS.parseInt (y +:+ rest) = JS.Finite (decimal 0 y).
Proof.
  intros Hy Hrest.
  apply year_inv in Hy as (a & b & c & d & -> & Ha & Hb & Hc & Hd).
  norm_append.
  assert (JS.digits 10 None (String a (String b (String c (String d rest))))
          = Some (decimal 0 (String a (String b (String c (String d EmptyString))))))
    as Hdigits.
  { cbn [JS.digits decimal].
    rewrite (digit_value_digit a (nonzero_is_digit a Ha)).
    rewrite (digit_value_digit b Hb), (digit_value_digit c Hc),
      (digit_value_digit d Hd).
    destruct Hrest as [-> | (x & r & -> & Hx)]; cbn [JS.digits];
      rewrite ?Hx; reflexivity. }
  assert (0 <= decimal 0 (String a (String b (String c (String d EmptyString))))
          < 2 ^ 53)%Z as Hsmall.
  { cbn [decimal].
    pose proof (digit_range a (nonzero_is_digit a Ha)).
    pose proof (digit_range b Hb). pose proof (digit_range c Hc).
    pose proof (digit_range d Hd).
    change (2 ^ 53)%Z with 9007199254740992%Z. lia. }
  revert Hdigits Hsmall.
  generalize (decimal 0 (String a (String b (String c (String d EmptyString))))).
  intros n Hdigits Hsmall.
  each_char a; try discriminate Ha;
    unfold JS.parseInt; cbn [JS.trim_start];
    (match goal with |- context [JS.is_space ?x] =>
       change (JS.is_space x) with false end);
    cbv iota beta; rewrite Hdigits; unfold JS.to_Number;
    now rewrite (round_double_small n Hsmall).
Qed.

Lemma parseInt_year_blank (y sp : string) :
  is_year y -> blank_or_none sp ->
  JS.parseInt (y +:+ sp) = JS.Finite (decimal 0 y).
Proof.
  intros Hy [-> | H]; apply parseInt_year; try assumption.
  - now left.
  - right. apply space_inv in H as (c & -> & Hc).
    exists c, EmptyString. split; [reflexivity |].
    now apply digit_value_space.
Qed.

Lemma parseInt_blank_year (sp z : string) :
  blank_or_none sp -> is_year z ->
  JS.parseInt (sp +:+ z) = JS.Finite (decimal 0 z).
Proof.
  intros [-> | H] Hz.
  - rewrite append_empty.
    replace z with (z +:+ EmptyString) at 1.
    + apply parseInt_year; [assumption | now left].
    + clear Hz. induction z as [| x z IH]; [reflexivity |].
      rewrite append_cons. now f_equal.
  - apply space_inv in H as (c & -> & Hc).
    norm_append. rewrite (parseInt_space _ _ Hc).
    replace z with (z +:+ EmptyString) at 1.
    + apply parseInt_year; [assumption | now left].
    + clear Hz. induction z as [| x z IH]; [reflexivity |].
      rewrite append_cons. now f_equal.
Qed.

(** The check on a text with one dash that holds a range somewhere: only
    the comparison of the two parts decides. *)
Lemma _checkCalendarYear_one_dash (pre y sp1 sp2 z post : string) :
  is_year y -> is_year z -> blank_or_none sp1 -> blank_or_none sp2 ->
  JS.includes "-" pre = false -> JS.includes "-" post = false ->
  _checkCalendarYear (pre +:+ y +:+ sp1 +:+ "-" +:+ sp2 +:+ z +:+ post)
  = negb (JS.gt (JS.parseInt (pre +:+ y +:+ sp1))
                (JS.parseInt (sp2 +:+ z +:+ post))).
Proof.
  intros Hy Hz H1 H2 Hpre Hpost. unfold _checkCalendarYear.
  assert (JS.includes "-" (pre +:+ y +:+ sp1) = false) as Hleft.
  { now rewrite !includes_append, Hpre, (year_no_dash y Hy), (blank_no_dash sp1 H1). }
  assert (JS.includes "-" (sp2 +:+ z +:+ post) = false) as Hright.
  { now rewrite !includes_append, Hpost, (year_no_dash z Hz), (blank_no_dash sp2 H2). }
  replace (pre +:+ y +:+ sp1 +:+ "-" +:+ sp2 +:+ z +:+ post)
    with ((pre +:+ y +:+ sp1) +:+ String "-" (sp2 +:+ z +:+ post))
    by (now norm_append).
  rewrite (split_once _ _ _ Hleft Hright).
  rewrite includes_append. cbn [JS.includes]. rewrite Ascii.eqb_refl.
  rewrite orb_true_r.
  replace ((pre +:+ y +:+ sp1) +:+ String "-" (sp2 +:+ z +:+ post))
    with (pre +:+ (y +:+ sp1 +:+ "-" +:+ sp2 +:+ z +:+ post))
    by (now norm_append).
  rewrite (found_append _ pre _
             (found_here _ _ (range_at_range y sp1 sp2 z post Hy Hz H1 H2))).
  cbn [negb lookup list_lookup PS.str].
  now destruct (JS.gt _ _).
Qed.

(** X23. A range of two four-digit years (1000 to 9999), written with or
    without one white space character on either side of the dash, passes
    the calendar-year check exactly when the first year is not after the
    second. *)
Theorem checkCalendarYear_range_ordered (y sp1 sp2 z : string) :
  is_year y -> is_year z -> blank_or_none sp1 -> blank_or_none sp2 ->
  _checkCalendarYear (y +:+ sp1 +:+ "-" +:+ sp2 +:+ z)
  = (decimal 0 y <=? decimal 0 z)%Z.
Proof.
  intros Hy Hz H1 H2.
  pose proof (_checkCalendarYear_one_dash EmptyString y sp1 sp2 z EmptyString
                Hy Hz H1 H2 eq_refl eq_refl) as H.
  rewrite !append_empty in H.
  replace (z +:+ EmptyString) with z in H.
  - rewrite H, (parseInt_year_blank y sp1 Hy H1), (parseInt_blank_year sp2 z H2 Hz).
    cbn [JS.gt]. rewrite Z.leb_antisym. reflexivity.
  - clear. induction z as [| x z IH]; [reflexivity |].
    rewrite append_cons. now f_equal.
Qed.

Lemma checkCalendarYear_range_ordered_witness :
  is_year "2020" /\ is_year "2021"
  /\ _checkCalendarYear ("2020" +:+ " " +:+ "-" +:+ EmptyString +:+ "2021") = true
  /\ _checkCalendarYear ("2021" +:+ EmptyString +:+ "-" +:+ " " +:+ "2020") = false.
Proof.
  split; [reflexivity |]. split; [reflexivity |]. split.
  - rewrite (checkCalendarYear_range_ordered "2020" " " EmptyString "2021");
      try reflexivity; [now right | now left].
  - rewrite (checkCalendarYear_range_ordered "2021" EmptyString " " "2020");
      try reflexivity; [now left | now right].
Defined.

(** X24. The order of a range is checked on what parseInt reads at the
    start of each side of the dash: when text that parseInt cannot read
    stands before the first year, the range passes the check whatever the
    two years are. *)
Theorem checkCalendarYear_unread_prefix (pre y z : string) :
  is_year y -> is_year z ->
  JS.includes "-" pre = false ->
  JS.parseInt (pre +:+ y) = JS.NaN ->
  _checkCalendarYear (pre +:+ y +:+ "-" +:+ z) = true.
Proof.
  intros Hy Hz Hpre Hnan.
  pose proof (_checkCalendarYear_one_dash pre y EmptyString EmptyString z
                EmptyString Hy Hz (or_introl eq_refl) (or_introl eq_refl)
                Hpre eq_refl) as H.
  rewrite !append_empty in H.
  replace (z +:+ EmptyString) with z in H.
  - rewrite H. replace (y +:+ EmptyString) with y.
    + now rewrite Hnan.
    + clear. induction y as [| x y IH]; [reflexivity |].
      rewrite append_cons. now f_equal.
  - clear. induction z as [| x z IH]; [reflexivity |].
    rewrite append_cons. now f_equal.
Qed.

Lemma checkCalendarYear_unread_prefix_witness :
  is_year "2022" /\ is_year "2020"
  /\ JS.parseInt ("x" +:+ "2022") = JS.NaN
  /\ _checkCalendarYear ("x" +:+ "2022" +:+ "-" +:+ "2020") = true.
Proof.
  split; [reflexivity |]. split; [reflexivity |]. split; [reflexivity |].
  apply (checkCalendarYear_unread_prefix "x" "2022" "2020"); reflexivity.
Defined.

(** X25. A text without a dash passes the calendar-year check exactly when
    a four-digit year (1000 to 9999) stands somewhere in it: the text
    around the year is not looked at. *)
Theorem checkCalendarYear_single_contains_year (s : string) :
  JS.includes "-" s = false ->
  (_checkCalendarYear s = true
   <-> exists pre y post, s = pre +:+ y +:+ post /\ is_year y).
Proof.
  intros Hdash. unfold _checkCalendarYear. rewrite Hdash. split.
  - intros H. apply found_inv in H as (pre & rest & -> & Hm).
    unfold JS.matches in Hm.
    destruct (JS.year rest) as [post |] eqn:Hyear; [| discriminate].
    apply year_inv in Hyear as (a & b & c & d & -> & Ha & Hb & Hc & Hd).
    exists pre, (String a (String b (String c (String d EmptyString)))), post.
    split; [now norm_append |].
    unfold is_year, JS.year. now rewrite Ha, Hb, Hc, Hd.
  - intros (pre & y & post & -> & Hy).
    apply found_append, found_here. unfold JS.matches.
    now rewrite (year_app y post Hy).
Qed.

Lemma checkCalendarYear_single_contains_year_witness :
  JS.includes "-" "12345" = false
  /\ _checkCalendarYear "12345" = true
  /\ _checkCalendarYear "0999" = false.
Proof.
  split; [reflexivity |]. split; [| reflexivity].
  apply (checkCalendarYear_single_contains_year "12345"); [reflexivity |].
  exists EmptyString, "1234", "5". split; reflexivity.
Defined.

Lemma length_substring (n m : nat) (s : string) :
  String.length (String.substring n m s) = Nat.min m (String.length s - n).
Proof.
  revert n m. induction s as [| c s IH]; intros [| n] [| m]; simpl;
    try reflexivity; try (rewrite IH; simpl; lia).
Qed.

(** X26. For a date of eight characters YYYYMMDD, followed by anything,
    the formatted date is YYYY-MM-DD: the first eight characters with a dash
    after the fourth and after the sixth. *)
Theorem getDateFormatted_eight_characters (y m d rest : string) :
  String.length y = 4%nat -> String.length m = 2%nat ->
  String.length d = 2%nat ->
  _getDateFormatted (y +:+ m +:+ d +:+ rest) = y +:+ "-" +:+ m +:+ "-" +:+ d.
Proof.
  intros Hy Hm Hd.
  destruct y as [| y1 [| y2 [| y3 [| y4 [| ? ?]]]]]; try discriminate Hy.
  destruct m as [| m1 [| m2 [| ? ?]]]; try discriminate Hm.
  destruct d as [| d1 [| d2 [| ? ?]]]; try discriminate Hd.
  unfold _getDateFormatted, JS.substring. norm_append.
  cbn [String.substring Nat.sub]. norm_append.
  destruct rest; reflexivity.
Qed.

Lemma getDateFormatted_eight_characters_witness :
  _getDateFormatted ("2025" +:+ "01" +:+ "31" +:+ "T00:00") = "2025-01-31".
Proof.
  apply (getDateFormatted_eight_characters "2025" "01" "31" "T00:00");
    reflexivity.
Defined.

(** X27. The date format rejects no text: the result always holds the two
    dashes and at most the first eight characters of the text. *)
Theorem getDateFormatted_length (s : string) :
  String.length (_getDateFormatted s)
  = (Nat.min (String.length s) 8 + 2)%nat.
Proof.
  unfold _getDateFormatted, JS.substring.
  rewrite !string_length_append, !length_substring.
  change (String.length "-") with 1%nat.
  change (4 - 0)%nat with 4%nat. change (6 - 4)%nat with 2%nat.
  change (8 - 6)%nat with 2%nat.
  lia.
Qed.
